(** * VoxBox: the sonority syllabifier and the script segmenter

    A shallow embedding of [tools/text/syllable_tokenizer.py] and of
    [split_zh_en] from [tools/text/text2syllable.py], with the properties of
    the specification stated over it.

    Phoneme symbols are strings, a token is a list of symbols, the phoneme
    map is a finite map from symbols to integer ranks, Python exceptions are
    the [Raise] results of a small error monad. *)

From Stdlib Require Import ZArith Lia Ascii String List.
From stdpp Require Import gmap strings list fin_maps.

Local Open Scope Z_scope.

(** ** Python exceptions as results *)

Inductive exn : Type := IndexError | TypeError | AssertionError.

Inductive result (A : Type) : Type :=
| Ok (a : A)
| Raise (e : exn).
Arguments Ok {A} a.
Arguments Raise {A} e.

Definition rbind {A B : Type} (r : result A) (k : A → result B) : result B :=
  match r with
  | Ok a => k a
  | Raise e => Raise e
  end.

Notation "x ←! r ; k" := (rbind r (λ x, k))
  (at level 20, r at level 100, k at level 200, right associativity,
   format "x  ←!  r ;  '/' k").

(** ** Python list helpers *)

(** [enumerate(l)]. *)
Definition enumerate {A : Type} (l : list A) : list (nat * A) :=
  imap (λ i x, (i, x)) l.

(** [l.count(x)]. *)
Definition list_count (x : string) (l : list string) : nat :=
  length (filter (λ y, y = x) l).

(** Bound of a slice: a negative index counts from the end, and the result
    is clamped to [0, len]. *)
Definition slice_bound (len i : Z) : Z :=
  if i <? 0 then Z.max (i + len) 0 else Z.min i len.

(** [l[start:stop]]. *)
Definition py_slice {A : Type} (l : list A) (start stop : Z) : list A :=
  let len := Z.of_nat (length l) in
  let s := slice_bound len start in
  let e := slice_bound len stop in
  take (Z.to_nat (e - s)) (drop (Z.to_nat s) l).

(** [l[:stop]]. *)
Definition py_slice_to {A : Type} (l : list A) (stop : Z) : list A :=
  take (Z.to_nat (slice_bound (Z.of_nat (length l)) stop)) l.

(** [l[start:]]. *)
Definition py_slice_from {A : Type} (l : list A) (start : Z) : list A :=
  drop (Z.to_nat (slice_bound (Z.of_nat (length l)) start)) l.

(** [ngrams(sequence, n=3)] without padding: the windows of three
    consecutive items, in order. *)
Fixpoint ngrams3 {A : Type} (sequence : list A) : list (A * A * A) :=
  match sequence with
  | a :: (b :: c :: _) as rest => (a, b, c) :: ngrams3 rest
  | _ => []
  end.

(** [pad_sequence]: [n - 1] copies of the pad symbol on either side that is
    asked for; [(x,) * (n - 1)] is empty for [n = 0]. The degree [n] is a
    natural number ([tee] refuses a negative one). *)
Definition pad_sequence {A : Type} (sequence : list A) (n : nat)
    (pad_left pad_right : bool) (left_pad_symbol right_pad_symbol : A)
  : list A :=
  let sequence :=
    if pad_left then replicate (n - 1) left_pad_symbol ++ sequence
    else sequence in
  if pad_right then sequence ++ replicate (n - 1) right_pad_symbol
  else sequence.

(** One turn of [zip]: the next item of every iterator, if none is
    exhausted, and the iterators after it. *)
Fixpoint heads_tails {A : Type} (iterables : list (list A))
  : option (list A * list (list A)) :=
  match iterables with
  | [] => Some ([], [])
  | l :: rest =>
      match l, heads_tails rest with
      | x :: t, Some (hs, ts) => Some (x :: hs, t :: ts)
      | _, _ => None
      end
  end.

Fixpoint zip_turns {A : Type} (turns : nat) (iterables : list (list A))
  : list (list A) :=
  match turns with
  | O => []
  | S turns =>
      match heads_tails iterables with
      | Some (hs, ts) => hs :: zip_turns turns ts
      | None => []
      end
  end.

(** [zip] over the unpacked iterables: nothing without iterables, and no more
    tuples than the first iterable has items. *)
Definition py_zip {A : Type} (iterables : list (list A)) : list (list A) :=
  match iterables with
  | [] => []
  | l :: _ => zip_turns (length l) iterables
  end.

(** [ngrams(sequence, n, ...)]: [tee] makes [n] copies of the padded
    sequence, copy [i] is advanced [i] items, and [zip] reads them side by
    side. *)
Definition ngrams {A : Type} (sequence : list A) (n : nat)
    (pad_left pad_right : bool) (left_pad_symbol right_pad_symbol : A)
  : list (list A) :=
  let sequence :=
    pad_sequence sequence n pad_left pad_right left_pad_symbol
      right_pad_symbol in
  let iterables := map (λ i, drop i sequence) (seq 0 n) in
  py_zip iterables.

(** The windows of width [n] of a list, left to right. *)
Definition windows {A : Type} (n : nat) (s : list A) : list (list A) :=
  map (λ i, take n (drop i s)) (seq 0 (length s + 1 - n)).

(** ** The tokenizer object *)

Record SyllableTokenizer : Type := mkTokenizer {
  vowels : list string;
  phoneme_map : gmap string Z
}.

Definition english_levels : list (list string) :=
  [ ["AO"; "AA"; "IY"; "UW"; "EH"; "IH"; "UH"; "AH"; "AE"; "EY"; "AY"; "OW";
     "AW"; "OY"; "ER"];
    ["Y"; "W"];
    ["L"; "EL"; "R"; "DX"; "NX"];
    ["M"; "EM"; "N"; "EN"; "NG"; "ENG"];
    ["P"; "B"; "T"; "D"; "K"; "G"; "CH"; "JH"; "F"; "V"; "TH"; "DH"; "S"; "Z";
     "SH"; "ZH"; "HH"] ]%string.

Definition stresses : list string := ["0"; "1"; "2"]%string.

(** The default hierarchy: level 0 is replaced by every base vowel with
    every stress digit appended. *)
Definition default_hierarchy : list (list string) :=
  match english_levels with
  | level0 :: rest =>
      flat_map (λ base, map (λ stress, base +:+ stress) stresses) level0 :: rest
  | [] => []
  end.

Section Init.
(** [str.upper]; the constructor is the only place that uses it. *)
Variable upper : string → string.

(** The two assignments of the inner loop of [__init__]. *)
Definition register (sonority_level : Z) (m : gmap string Z) (c : string)
  : gmap string Z :=
  <[upper c := sonority_level]> (<[c := sonority_level]> m).

Definition register_level (n : Z) (m : gmap string Z)
    (il : nat * list string) : gmap string Z :=
  fold_left (register (n - Z.of_nat il.1)) il.2 m.

Definition build_phoneme_map (h : list (list string)) : gmap string Z :=
  fold_left (register_level (Z.of_nat (length h))) (enumerate h) ∅.

(** Python truth value of the [sonority_hierarchy] argument: [None] stands
    for the default [False], an empty list is falsy as well. *)
Definition truthy (sonority_hierarchy : option (list (list string))) : bool :=
  match sonority_hierarchy with
  | Some (_ :: _) => true
  | _ => false
  end.

Definition hierarchy_in_effect (lang : string)
    (sonority_hierarchy : option (list (list string)))
  : option (list (list string)) :=
  if negb (truthy sonority_hierarchy) && String.eqb lang "en"
  then Some default_hierarchy
  else sonority_hierarchy.

(** [SyllableTokenizer.__init__]: [False[0]] is a [TypeError], [[][0]] an
    [IndexError]. *)
Definition __init__ (lang : string)
    (sonority_hierarchy : option (list (list string)))
  : result SyllableTokenizer :=
  match hierarchy_in_effect lang sonority_hierarchy with
  | None => Raise TypeError
  | Some [] => Raise IndexError
  | Some ((level0 :: _) as h) =>
      Ok {| vowels := level0; phoneme_map := build_phoneme_map h |}
  end.

(** What the constructor builds from the default hierarchy. *)
Definition default_tokenizer : SyllableTokenizer :=
  {| vowels := default [] (head default_hierarchy);
     phoneme_map := build_phoneme_map default_hierarchy |}.
End Init.

(** [str.upper] on ASCII text: the letters a-z are moved to A-Z and every
    other byte is kept. *)
Definition ascii_upper (c : ascii) : ascii :=
  let n := nat_of_ascii c in
  if (Nat.leb 97 n && Nat.leb n 122)%bool then ascii_of_nat (n - 32) else c.

Fixpoint str_upper (s : string) : string :=
  match s with
  | EmptyString => EmptyString
  | String c rest => String (ascii_upper c) (str_upper rest)
  end.

(** [SSP = SyllableTokenizer()]. *)
Definition SSP : SyllableTokenizer := default_tokenizer str_upper.

(** ** The methods *)

Definition vowel_set (T : SyllableTokenizer) : gset string :=
  list_to_set (vowels T).

(** [assign_values]: a symbol without an entry raises [KeyError] inside the
    [try] and is passed over. *)
Definition assign_values (T : SyllableTokenizer) (token : list string)
  : list (string * Z) :=
  fold_left
    (λ syllables_values c,
       match phoneme_map T !! c with
       | Some v => syllables_values ++ [(c, v)]
       | None => syllables_values
       end)
    token [].

(** The inner loop of [validate_syllables], with its [break]. *)
Fixpoint has_vowel (vs : gset string) (syllable : list string) : bool :=
  match syllable with
  | [] => false
  | phone :: rest =>
      if bool_decide (phone ∈ vs) then true else has_vowel vs rest
  end.

(** [valid_syllables[-1] += syllable]. *)
Fixpoint extend_last (valid_syllables : list (list string))
    (syllable : list string) : list (list string) :=
  match valid_syllables with
  | [] => []
  | [x] => [x ++ syllable]
  | x :: rest => x :: extend_last rest syllable
  end.

Definition merge_step (vs : gset string)
    (st : list (list string) * list string) (syllable : list string)
  : list (list string) * list string :=
  let '(valid_syllables, front) := st in
  if negb (has_vowel vs syllable) then
    if Nat.eqb (length valid_syllables) 0
    then (valid_syllables, front ++ syllable)
    else (extend_last valid_syllables syllable, front)
  else
    if Nat.eqb (length valid_syllables) 0
    then (valid_syllables ++ [front ++ syllable], front)
    else (valid_syllables ++ [syllable], front).

(** [validate_syllables] on the values of the syllables: what the method
    returns for a list of distinct list objects, which is what [tokenize]
    hands to it. *)
Definition validate_syllables (T : SyllableTokenizer)
    (syllable_list : list (list string)) : list (list string) :=
  (fold_left (merge_step (vowel_set T)) syllable_list ([], [])).1.

(** *** The merge pass on list objects

    The method keeps the caller's list objects: [valid_syllables.append(syllable)]
    stores the object itself, and [valid_syllables[-1] += syllable] then grows
    that object in place. A list object that occurs twice in [syllable_list]
    is therefore read in its grown state the second time. The model below
    keeps the identity of the objects: the caller's lists live in a store and
    [syllable_list] is a list of addresses. The one list the method allocates
    itself is [front + syllable], the first entry of [valid_syllables];
    [front] is a local list that is never stored. *)

(** A list object: one of the caller's, or the list [front + syllable]. *)
Inductive obj : Type :=
  | Fresh
  | Ref (r : nat).

Record heap : Type := Heap {
  cells : gmap nat (list string);
  fresh_cell : list string
}.

(** The value of the list at address [r]; an address that the store does
    not hold reads as the empty list. *)
Definition read (σ : gmap nat (list string)) (r : nat) : list string :=
  default [] (σ !! r).

Definition deref (h : heap) (o : obj) : list string :=
  match o with
  | Fresh => fresh_cell h
  | Ref r => read (cells h) r
  end.

(** [o += syllable] on the list object [o]. *)
Definition extend (h : heap) (o : obj) (syllable : list string) : heap :=
  match o with
  | Fresh => Heap (cells h) (fresh_cell h ++ syllable)
  | Ref r => Heap (<[r := read (cells h) r ++ syllable]> (cells h)) (fresh_cell h)
  end.

Definition merge_step_objs (vs : gset string)
    (st : heap * list obj * list string) (r : nat)
  : heap * list obj * list string :=
  let '(h, valid_syllables, front) := st in
  let syllable := deref h (Ref r) in
  if negb (has_vowel vs syllable) then
    if Nat.eqb (length valid_syllables) 0
    then (h, valid_syllables, front ++ syllable)
    else
      match last valid_syllables with
      | Some o => (extend h o syllable, valid_syllables, front)
      | None => (h, valid_syllables, front)
      end
  else
    if Nat.eqb (length valid_syllables) 0
    then (Heap (cells h) (front ++ syllable), valid_syllables ++ [Fresh], front)
    else (h, valid_syllables ++ [Ref r], front).

(** The result of [validate_syllables] on the objects at the addresses
    [syllable_list] of the store [σ]: the values of the returned objects when
    the method returns. *)
Definition validate_syllables_objs (T : SyllableTokenizer)
    (σ : gmap nat (list string)) (syllable_list : list nat)
  : list (list string) :=
  let '(h, valid_syllables, _) :=
    fold_left (merge_step_objs (vowel_set T)) syllable_list (Heap σ [], [], [])
  in
  map (deref h) valid_syllables.

(** The inner loop of [validate_syllables2] over [enumerate(syllable)]. *)
Definition vowel_scan_step (vs : gset string) (st : Z * bool)
    (ip : nat * string) : Z * bool :=
  let '(first_vowel_i, multi_vowel) := st in
  if bool_decide (ip.2 ∈ vs) then
    if first_vowel_i =? -1 then (Z.of_nat ip.1, multi_vowel)
    else (first_vowel_i, true)
  else (first_vowel_i, multi_vowel).

Definition vowel_scan (vs : gset string) (syllable : list string) : Z * bool :=
  fold_left (vowel_scan_step vs) (enumerate syllable) (-1, false).

Definition split_step (vs : gset string)
    (acc : result (list (list string))) (syllable : list string)
  : result (list (list string)) :=
  valid_syllables ←! acc;
  let '(first_vowel_i, multi_vowel) := vowel_scan vs syllable in
  if first_vowel_i >? -1 then
    if multi_vowel
    then Ok (valid_syllables ++ [py_slice_to syllable (first_vowel_i + 1);
                                 py_slice_from syllable (first_vowel_i + 1)])
    else Ok (valid_syllables ++ [syllable])
  else Raise AssertionError.

Definition validate_syllables2 (T : SyllableTokenizer)
    (syllable_list : list (list string)) : result (list (list string)) :=
  fold_left (split_step (vowel_set T)) syllable_list (Ok []).

(** One turn of the trigram loop of [tokenize]. *)
Definition scan_step (st : list (list string) * list string)
    (trigram : (string * Z) * (string * Z) * (string * Z))
  : list (list string) * list string :=
  let '(syllable_list, syllable) := st in
  let '((_, prev_value), (focal_phoneme, focal_value), (_, next_value)) :=
    trigram in
  if (prev_value >=? focal_value) && (focal_value =? next_value) then
    (syllable_list ++ [syllable ++ [focal_phoneme]], [])
  else if (prev_value >? focal_value) && (focal_value <? next_value) then
    (syllable_list ++ [syllable], [focal_phoneme])
  else
    (syllable_list, syllable ++ [focal_phoneme]).

(** [sum(token.count(x) for x in self.vowels)]. *)
Definition vowel_total (T : SyllableTokenizer) (token : list string) : nat :=
  sum_list (map (λ x, list_count x token) (vowels T)).

Definition tokenize (T : SyllableTokenizer) (token : list string)
  : result (list (list string)) :=
  let syllables_values := assign_values T token in
  if Nat.leb (vowel_total T token) 1 then Ok [token]
  else
    match head syllables_values, last syllables_values with
    | Some (first_phoneme, _), Some (last_phoneme, _) =>
        let '(syllable_list, syllable) :=
          fold_left scan_step (ngrams3 syllables_values) ([], [first_phoneme]) in
        let syllable := syllable ++ [last_phoneme] in
        let syllable_list := syllable_list ++ [syllable] in
        let syllable_list := validate_syllables T syllable_list in
        validate_syllables2 T syllable_list
    | _, _ => Raise IndexError
    end.

(** [TokenizerI.tokenize_sents]: [[self.tokenize(s) for s in strings]]. *)
Definition tokenize_sents (T : SyllableTokenizer)
    (strings : list (list string)) : result (list (list (list string))) :=
  fold_left
    (λ acc s, tokenized ←! acc; syls ←! tokenize T s; Ok (tokenized ++ [syls]))
    strings (Ok []).

(** The inner loop of [syllable] over the syllables of one word. *)
Definition emit_step (st : list string * list Z) (syl : list string)
  : list string * list Z :=
  let '(syllables, phone_nums_in_syllable) := st in
  (syllables ++ [String.concat " " syl],
   phone_nums_in_syllable ++ [Z.of_nat (length syl)]).

Definition syllable_step (T : SyllableTokenizer) (phones : list string)
    (acc : result (Z * (list string * list Z))) (n : Z)
  : result (Z * (list string * list Z)) :=
  st ←! acc;
  let '(start, (syllables, phone_nums_in_syllable)) := st in
  let end_ := start + n in
  let phone := py_slice phones start end_ in
  let start := end_ in
  if n <=? 2 then
    Ok (start, (syllables ++ [String.concat " " phone],
                phone_nums_in_syllable ++ [n]))
  else
    syllable ←! tokenize T phone;
    Ok (start, fold_left emit_step syllable (syllables, phone_nums_in_syllable)).

(** [SyllableTokenizer.syllable]. *)
Definition syllable (T : SyllableTokenizer) (phones : list string)
    (phone_nums : list Z) : result (list string * list Z) :=
  st ←! fold_left (syllable_step T phones) phone_nums (Ok (0, ([], [])));
  Ok st.2.

(** ** Script segmentation ([text2syllable.py])

    A Python [str] is a sequence of code points. *)

Abbreviation py_str := (list N).

(** [str.isspace] on one code point, the characters [str.strip()] removes. *)
Definition is_space (c : N) : bool :=
  ((9 <=? c) && (c <=? 13) || (28 <=? c) && (c <=? 32)
   || (c =? 133) || (c =? 160) || (c =? 5760)
   || (8192 <=? c) && (c <=? 8202)
   || (c =? 8232) || (c =? 8233) || (c =? 8239) || (c =? 8287)
   || (c =? 12288))%N.

Fixpoint lstrip (s : py_str) : py_str :=
  match s with
  | c :: rest => if is_space c then lstrip rest else s
  | [] => []
  end.

Definition rstrip (s : py_str) : py_str := rev (lstrip (rev s)).

(** The characters of a text that are not white space. *)
Definition visible (s : py_str) : py_str :=
  filter (λ c, is_space c = false) s.

(** [s.strip()]. *)
Definition strip (s : py_str) : py_str := rstrip (lstrip s).

(** A greedy [[...]+] at the head of the text: the longest run of characters
    of the class, and what follows it. *)
Fixpoint span (class : N → bool) (text : py_str) : py_str * py_str :=
  match text with
  | c :: rest =>
      if class c then let '(run, tail) := span class rest in (c :: run, tail)
      else ([], text)
  | [] => ([], [])
  end.

Section Segmenter.
(** Membership in the character class [[UNICODE_ALL_CN]]; the constant is
    imported from [tools/text/unicode.py]. *)
Variable in_cn : N → bool.

(** One match of [[CN]+|[^CN]+] at the head of the text: the first
    alternative that matches a non-empty run wins. *)
Definition match_here (text : py_str) : option (py_str * py_str) :=
  match span in_cn text with
  | (c :: run, tail) => Some (c :: run, tail)
  | ([], _) =>
      match span (λ c, negb (in_cn c)) text with
      | (c :: run, tail) => Some (c :: run, tail)
      | ([], _) => None
      end
  end.

(** The scan of [re.findall]: after a match the search resumes where it
    ended, without one it moves one character on. Every match takes a
    character, so [length text] turns are enough. *)
Fixpoint findall_from (turns : nat) (text : py_str) : list py_str :=
  match turns with
  | O => []
  | S turns =>
      match text with
      | [] => []
      | _ :: next =>
          match match_here text with
          | Some (segment, tail) => segment :: findall_from turns tail
          | None => findall_from turns next
          end
      end
  end.

Definition re_findall (text : py_str) : list py_str :=
  findall_from (length text) text.

(** [split_zh_en]: [[seg.strip() for seg in segments if seg.strip()]]. *)
Definition split_zh_en (text : py_str) : list py_str :=
  map strip (filter (λ seg, strip seg ≠ []) (re_findall text)).
End Segmenter.

(** The range of Chinese characters that the cleanup pattern of
    [text2syllables] names, U+4E00 to U+9FFF: one character class that the
    docstring example of [split_zh_en] can be run with. *)
Definition cjk_unified (c : N) : bool := ((19968 <=? c) && (c <=? 40959))%N.

(** ["你好Hello世界World"] and its four segments, as code points. *)
Definition sample_text : py_str :=
  [20320; 22909; 72; 101; 108; 108; 111; 19990; 30028; 87; 111; 114; 108;
   100]%N.

Definition sample_segments : list py_str :=
  [[20320; 22909]; [72; 101; 108; 108; 111]; [19990; 30028];
   [87; 111; 114; 108; 100]]%N.

(** A class that tells the characters of the sample apart as the docstring
    expects: the four Chinese characters in, the Latin letters out. *)
Definition classifies_sample (in_cn : N → bool) : Prop :=
  Forall (λ c, in_cn c = true) [20320; 22909; 19990; 30028]%N ∧
  Forall (λ c, in_cn c = false) [72; 101; 108; 111; 87; 114; 100]%N.

(** ** Vowels and mapped symbols *)

(** Number of vowel phonemes of a sequence: membership in the vowel level. *)
Definition vowel_count (T : SyllableTokenizer) (l : list string) : nat :=
  length (filter (λ c, c ∈ vowels T) l).

(** The symbols of a sequence that have an entry in the phoneme map. *)
Definition mapped (T : SyllableTokenizer) (l : list string) : list string :=
  filter (λ c, is_Some (phoneme_map T !! c)) l.

(** A tokenizer whose vowel level lists each vowel once and sits at the top
    of the ranks. *)
Definition wf_tokenizer (T : SyllableTokenizer) : Prop :=
  NoDup (vowels T) ∧
  ∃ top : Z,
    (∀ c, c ∈ vowels T → phoneme_map T !! c = Some top) ∧
    (∀ c r, phoneme_map T !! c = Some r → r ≤ top).

(** A tokenizer whose vowels all have an entry in the phoneme map, as every
    tokenizer has that [__init__] builds. *)
Definition vowels_ranked (T : SyllableTokenizer) : Prop :=
  ∀ c, c ∈ vowels T → is_Some (phoneme_map T !! c).

(** Number of phonemes of rank [top] in a syllable. *)
Definition top_count (T : SyllableTokenizer) (top : Z) (syl : list string)
  : nat :=
  length (filter (λ c, phoneme_map T !! c = Some top) syl).

(** A list of pairs as [assign_values] builds them: each symbol with its
    rank. *)
Definition ranked (T : SyllableTokenizer) (l : list (string * Z)) : Prop :=
  Forall (λ x, phoneme_map T !! x.1 = Some x.2) l.

(** What the merge loop maintains after the syllables [processed]: the
    vowelled syllables keep their vowel counts, and nothing is lost once a
    first vowelled syllable has been seen. *)
Definition merge_inv (T : SyllableTokenizer)
    (processed : list (list string))
    (st : list (list string) * list string) : Prop :=
  map (vowel_count T) st.1
    = filter (λ n, (0 < n)%nat) (map (vowel_count T) processed) ∧
  vowel_count T st.2 = 0%nat ∧
  (st.1 = [] → concat processed = st.2) ∧
  (st.1 ≠ [] → concat st.1 = concat processed).

(** ** The properties as the specification words them *)

(** Coverage as the specification words it: the syllables spell the input. *)
Definition covers_input (T : SyllableTokenizer) : Prop :=
  ∀ token syls, tokenize T token = Ok syls → concat syls = token.


(** "Never split" as the specification words it. *)
Definition short_never_split (T : SyllableTokenizer) : Prop :=
  ∀ token, (length token = 1 ∨ length token = 2)%nat →
           tokenize T token = Ok [token].

(** Validation as the specification words it: an empty hierarchy, or one
    with an empty vowel level, is refused. *)
Definition rejects_malformed (upper : string → string) : Prop :=
  ∀ lang h, h = [] ∨ head h = Some [] →
            ∃ e, __init__ upper lang (Some h) = Raise e.

(** Case-insensitive lookup as the specification words it: a spelling that
    differs from a symbol of the hierarchy only by case has a rank. *)
Definition lookup_ignores_case (upper : string → string)
    (T : SyllableTokenizer) (h : list (list string)) : Prop :=
  ∀ level c c', level ∈ h → c ∈ level → upper c' = upper c →
                is_Some (phoneme_map T !! c').

(** [sum(l)] on integers. *)
Definition Zsum (l : list Z) : Z := foldr Z.add 0 l.

(** The words of a phone stream: consecutive slices of the given sizes. *)
Fixpoint split_words (phones : list string) (phone_nums : list Z)
  : list (list string) :=
  match phone_nums with
  | [] => []
  | n :: rest =>
      take (Z.to_nat n) phones :: split_words (drop (Z.to_nat n) phones) rest
  end.

(** What [syllable] is specified to emit for one word: the word itself when
    it has at most two phones, the syllables of [tokenize] otherwise. *)
Definition word_emitted (T : SyllableTokenizer) (word : list string)
    (syls : list (list string)) : Prop :=
  if decide (length word ≤ 2)%nat then syls = [word]
  else tokenize T word = Ok syls.

(** What one word contributes: it is emitted as specified, and spelled out
    in full when all its phones have a rank. *)
Definition word_ok (T : SyllableTokenizer) (word : list string)
    (syls : list (list string)) : Prop :=
  word_emitted T word syls ∧
  (Forall (λ c, is_Some (phoneme_map T !! c)) word → concat syls = word).

(** The count bookkeeping as the specification words it. *)
Definition counts_sum_to_length (T : SyllableTokenizer) : Prop :=
  ∀ phones phone_nums syllables counts,
    Zsum phone_nums = Z.of_nat (length phones) →
    syllable T phones phone_nums = Ok (syllables, counts) →
    Zsum counts = Z.of_nat (length phones).

(** * Proofs *)

Section Basics.
Variable T : SyllableTokenizer.
Implicit Types (c : string) (l token syl : list string).
Implicit Types (sl : list (list string)).

Lemma in_vowel_set c : c ∈ vowel_set T ↔ c ∈ vowels T.
Proof. unfold vowel_set. apply elem_of_list_to_set. Qed.

Lemma vowel_count_nil : vowel_count T [] = 0%nat.
Proof. reflexivity. Qed.

Lemma vowel_count_cons c l :
  vowel_count T (c :: l)
  = ((if decide (c ∈ vowels T) then 1 else 0) + vowel_count T l)%nat.
Proof.
  unfold vowel_count. rewrite filter_cons.
  destruct (decide (c ∈ vowels T)); reflexivity.
Qed.

Lemma vowel_count_app l1 l2 :
  vowel_count T (l1 ++ l2) = (vowel_count T l1 + vowel_count T l2)%nat.
Proof. unfold vowel_count. by rewrite filter_app, length_app. Qed.

Lemma vowel_count_concat sl :
  vowel_count T (concat sl) = sum_list (map (vowel_count T) sl).
Proof.
  induction sl as [|s sl IH]; [done|].
  simpl. by rewrite vowel_count_app, IH.
Qed.

Lemma has_vowel_count l :
  has_vowel (vowel_set T) l = true ↔ (0 < vowel_count T l)%nat.
Proof.
  induction l as [|c l IH]; simpl.
  - rewrite vowel_count_nil. split; [done | lia].
  - rewrite vowel_count_cons. case_bool_decide as Hc.
    + apply in_vowel_set in Hc. rewrite decide_True by done.
      split; [lia | done].
    + rewrite in_vowel_set in Hc. rewrite decide_False by done.
      by rewrite IH.
Qed.

Lemma has_vowel_false l :
  has_vowel (vowel_set T) l = false ↔ vowel_count T l = 0%nat.
Proof.
  destruct (has_vowel (vowel_set T) l) eqn:E.
  - apply has_vowel_count in E. split; [done | lia].
  - split; [|done]. intros _.
    destruct (vowel_count T l) eqn:E'; [done|].
    assert (has_vowel (vowel_set T) l = true) as E2
      by (apply has_vowel_count; lia).
    congruence.
Qed.

(** A sequence with a vowel splits at its first vowel. *)
Lemma first_vowel_split l :
  (0 < vowel_count T l)%nat →
  ∃ pre v post,
    l = pre ++ v :: post ∧ vowel_count T pre = 0%nat ∧ v ∈ vowels T.
Proof.
  induction l as [|c l IH]; [rewrite vowel_count_nil; lia|].
  rewrite vowel_count_cons. destruct (decide (c ∈ vowels T)) as [Hc|Hc].
  - intros _. by exists [], c, l.
  - intros Hpos. destruct IH as (pre & v & post & -> & Hpre & Hv); [lia|].
    exists (c :: pre), v, post. split_and!; [done| |done].
    rewrite vowel_count_cons, decide_False by done. lia.
Qed.

(** [assign_values] keeps, in order, the symbols that have a rank. *)
Lemma assign_values_omap token :
  assign_values T token
  = omap (λ c, (λ v, (c, v)) <$> phoneme_map T !! c) token.
Proof.
  unfold assign_values.
  enough (∀ acc,
    fold_left
      (λ syllables_values c,
         match phoneme_map T !! c with
         | Some v => syllables_values ++ [(c, v)]
         | None => syllables_values
         end) token acc
    = acc ++ omap (λ c, (λ v, (c, v)) <$> phoneme_map T !! c) token)
    as H by apply (H []).
  induction token as [|c token IH]; intros acc; simpl.
  - by rewrite app_nil_r.
  - rewrite IH. destruct (phoneme_map T !! c); simpl; [|done].
    by rewrite <- app_assoc.
Qed.

Lemma assign_values_fst token :
  map fst (assign_values T token) = mapped T token.
Proof.
  rewrite assign_values_omap. unfold mapped.
  induction token as [|c token IH]; [done|].
  rewrite filter_cons. cbn [omap list_omap].
  destruct (decide (is_Some (phoneme_map T !! c))) as [[v Hv]|Hn].
  - rewrite Hv. simpl. by rewrite IH.
  - destruct (phoneme_map T !! c) eqn:E; [by destruct Hn; eauto|].
    simpl. apply IH.
Qed.

Lemma assign_values_rank token :
  Forall (λ p, phoneme_map T !! p.1 = Some p.2) (assign_values T token).
Proof.
  rewrite assign_values_omap.
  induction token as [|c token IH]; simpl; [constructor|].
  destruct (phoneme_map T !! c) eqn:E; simpl; [|done].
  constructor; done.
Qed.

Lemma list_count_cons x c l :
  list_count x (c :: l)
  = ((if decide (c = x) then 1 else 0) + list_count x l)%nat.
Proof.
  unfold list_count. rewrite filter_cons.
  destruct (decide (c = x)); reflexivity.
Qed.

Lemma sum_indicator c (vs : list string) :
  NoDup vs →
  sum_list (map (λ x, if decide (c = x) then 1%nat else 0%nat) vs)
  = if decide (c ∈ vs) then 1%nat else 0%nat.
Proof.
  induction 1 as [|x vs Hx Hnd IH].
  - case_decide as Hin; [by apply not_elem_of_nil in Hin | done].
  - cbn [map sum_list sum_list_with]. rewrite IH.
    destruct (decide (c = x)) as [->|Hne].
    + rewrite (decide_False (P := x ∈ vs)) by done.
      rewrite decide_True by apply list_elem_of_here. done.
    + destruct (decide (c ∈ vs)) as [Hin|Hin].
      * rewrite decide_True by (by apply list_elem_of_further). done.
      * rewrite decide_False; [done|].
        intros [?|?]%elem_of_cons; done.
Qed.

Lemma sum_count_cons c l (vs : list string) :
  sum_list (map (λ x, list_count x (c :: l)) vs)
  = (sum_list (map (λ x, if decide (c = x) then 1%nat else 0%nat) vs)
     + sum_list (map (λ x, list_count x l) vs))%nat.
Proof.
  induction vs as [|x vs IH]; simpl; [done|].
  rewrite IH, list_count_cons. lia.
Qed.

(** With a duplicate-free vowel level, the sum of the per-vowel counts is
    the number of vowel phonemes. *)
Lemma vowel_total_count token :
  NoDup (vowels T) → vowel_total T token = vowel_count T token.
Proof.
  intros Hnd. unfold vowel_total.
  induction token as [|c token IH].
  - rewrite vowel_count_nil.
    induction (vowels T) as [|x vs IHv]; simpl; [done|].
    apply NoDup_cons in Hnd as [_ Hnd]. by rewrite IHv.
  - rewrite sum_count_cons, IH, sum_indicator, vowel_count_cons by done.
    done.
Qed.

(** Without that assumption the sum is still at least the count. *)
Lemma vowel_total_zero token :
  vowel_total T token = 0%nat → vowel_count T token = 0%nat.
Proof.
  unfold vowel_total. induction token as [|c token IH]; [done|].
  rewrite sum_count_cons, vowel_count_cons. intros H.
  rewrite IH by lia. destruct (decide (c ∈ vowels T)) as [Hc|Hc]; [|done].
  exfalso. revert Hc H. clear.
  induction (vowels T) as [|x vs IHv]; simpl.
  - intros Hc. by apply not_elem_of_nil in Hc.
  - intros Hc. apply elem_of_cons in Hc as [->|Hc].
    + rewrite decide_True by done. lia.
    + specialize (IHv Hc). lia.
Qed.
End Basics.

(** ** The trigram scan *)

Section Scan.
Variable T : SyllableTokenizer.
Variable top : Z.
Hypothesis rank_le_top : ∀ c r, phoneme_map T !! c = Some r → r ≤ top.

Implicit Types (c : string) (syl : list string) (sl : list (list string)).
Implicit Types (p q : string * Z) (l : list (string * Z)).

Local Abbreviation top_count := (top_count T top).
Local Abbreviation ranked := (ranked T).

Lemma top_count_app syl1 syl2 :
  top_count (syl1 ++ syl2) = (top_count syl1 + top_count syl2)%nat.
Proof. unfold top_count. by rewrite filter_app, length_app. Qed.

Lemma top_count_single c v :
  phoneme_map T !! c = Some v →
  top_count [c] = if decide (v = top) then 1%nat else 0%nat.
Proof.
  intros Hc. unfold top_count. rewrite filter_cons, filter_nil.
  destruct (decide (v = top)) as [->|Hne].
  - by rewrite decide_True.
  - rewrite decide_False; [done | congruence].
Qed.

(** The open syllable never collects three phonemes of top rank: once it
    holds two, or one followed by something lower, the ranks are falling
    strictly, so the scan breaks before the next rise. *)
Lemma scan_top_count l : ∀ sl syl p q sl' syl',
  ranked (p :: l) →
  last l = Some q →
  Forall (λ s, (top_count s ≤ 2)%nat) sl →
  (top_count syl ≤ 2)%nat →
  ((top_count syl = 2%nat ∨ (top_count syl = 1%nat ∧ p.2 < top)) →
   match l with f :: _ => f.2 < p.2 | [] => True end) →
  fold_left scan_step (ngrams3 (p :: l)) (sl, syl) = (sl', syl') →
  Forall (λ s, (top_count s ≤ 2)%nat) (sl' ++ [syl' ++ [q.1]]).
Proof.
  induction l as [|f l IH]; intros sl syl p q sl' syl' Hr Hlast Hsl Hsyl Hinv.
  { done. }
  apply Forall_cons in Hr as [Hp Hr].
  pose proof Hr as Hfl. apply Forall_cons in Hfl as [Hf Hl].
  pose proof (rank_le_top _ _ Hp) as Hple.
  pose proof (rank_le_top _ _ Hf) as Hfle.
  pose proof (top_count_single _ _ Hf) as Hf1.
  destruct l as [|n r].
  - (* two items left: the loop is over, the last phoneme is appended *)
    simpl. intros [= <- <-]. simpl in Hlast. injection Hlast as <-.
    apply Forall_app. split; [done|]. apply Forall_singleton.
    rewrite top_count_app, Hf1. case_decide; lia.
  - apply Forall_cons in Hl as [Hn Hl].
    pose proof (rank_le_top _ _ Hn) as Hnle.
    destruct p as [pc pv], f as [fc fv], n as [nc nv].
    rewrite last_cons_cons in Hlast.
    change (ngrams3 ((pc, pv) :: (fc, fv) :: (nc, nv) :: r))
      with (((pc, pv), (fc, fv), (nc, nv)) :: ngrams3 ((fc, fv) :: (nc, nv) :: r)).
    cbn [fold_left scan_step]. cbn [fst snd] in *.
    destruct (Z.geb_spec pv fv), (Z.eqb_spec fv nv),
      (Z.gtb_spec pv fv), (Z.ltb_spec fv nv); cbn [andb];
      try (exfalso; lia);
      (apply IH;
       [ exact Hr
       | exact Hlast
       | first [ exact Hsl
               | apply Forall_app; split; [exact Hsl|];
                 apply Forall_singleton ]
       | | ]);
      rewrite ?top_count_app, ?Hf1; change (top_count []) with 0%nat;
      cbn [fst snd]; try case_decide; lia.
Qed.

(** The scan only cuts: the syllables it builds spell the ranked
    sequence. *)
Lemma scan_concat l : ∀ sl syl p q sl' syl',
  last l = Some q →
  fold_left scan_step (ngrams3 (p :: l)) (sl, syl) = (sl', syl') →
  concat (sl' ++ [syl' ++ [q.1]]) = concat sl ++ syl ++ map fst l.
Proof.
  induction l as [|f l IH]; intros sl syl p q sl' syl' Hlast; [done|].
  destruct l as [|n r].
  - simpl. intros [= <- <-]. simpl in Hlast. injection Hlast as <-.
    rewrite concat_app. simpl. by rewrite app_nil_r.
  - destruct p as [pc pv], f as [fc fv], n as [nc nv].
    rewrite last_cons_cons in Hlast.
    change (ngrams3 ((pc, pv) :: (fc, fv) :: (nc, nv) :: r))
      with (((pc, pv), (fc, fv), (nc, nv)) :: ngrams3 ((fc, fv) :: (nc, nv) :: r)).
    cbn [fold_left scan_step].
    destruct ((pv >=? fv) && (fv =? nv)); [|destruct ((pv >? fv) && (fv <? nv))];
      intros Hfold; rewrite (IH _ _ _ _ _ _ Hlast Hfold);
      rewrite ?concat_app; simpl; rewrite ?app_nil_r, <- ?app_assoc; done.
Qed.
End Scan.

(** ** The two repair passes *)

Section Repair.
Variable T : SyllableTokenizer.
Implicit Types (c v : string) (s syl pre post front : list string).
Implicit Types (sl valid processed out : list (list string)).

Local Abbreviation merge_inv := (merge_inv T).

Lemma extend_last_snoc valid s syl :
  extend_last (valid ++ [s]) syl = valid ++ [s ++ syl].
Proof.
  induction valid as [|x valid IH]; [done|].
  simpl. rewrite IH. by destruct valid.
Qed.

Lemma snoc_cases valid : valid = [] ∨ ∃ front_part s, valid = front_part ++ [s].
Proof.
  induction valid as [|x valid _] using rev_ind; [by left | right; eauto].
Qed.

Lemma merge_step_inv processed st s :
  merge_inv processed st →
  merge_inv (processed ++ [s]) (merge_step (vowel_set T) st s).
Proof.
  destruct st as [valid front]. intros (Hvc & Hfront & Hnil & Hcons).
  simpl in *. unfold merge_step, merge_inv.
  rewrite map_app, filter_app, concat_app. simpl. rewrite app_nil_r.
  destruct (has_vowel (vowel_set T) s) eqn:Hs; simpl.
  - apply has_vowel_count in Hs. rewrite filter_cons_True by done.
    destruct (snoc_cases valid) as [->|(front_part & lst & ->)]; simpl.
    + rewrite <- Hvc, vowel_count_app, Hfront, Hnil by done.
      split_and!; [done | done | done | by rewrite app_nil_r].
    + rewrite length_app, Nat.add_comm. simpl.
      rewrite <- Hvc, <- Hcons by (by destruct front_part).
      rewrite (map_app _ (front_part ++ [lst])), (concat_app (front_part ++ [lst])).
      simpl. rewrite app_nil_r.
      split_and!; [done | done | by destruct front_part | done].
  - apply has_vowel_false in Hs.
    rewrite filter_cons_False, filter_nil, app_nil_r by lia.
    destruct (snoc_cases valid) as [->|(front_part & lst & ->)]; simpl.
    + rewrite vowel_count_app, Hfront, Hs, Hnil by done.
      split_and!; done.
    + rewrite length_app, Nat.add_comm. simpl.
      rewrite extend_last_snoc. rewrite <- Hvc.
      rewrite !map_app, !concat_app. simpl.
      rewrite vowel_count_app, Hs, Nat.add_0_r, !app_nil_r.
      rewrite <- Hcons by (by destruct front_part).
      rewrite concat_app. simpl. rewrite app_nil_r, app_assoc.
      split_and!; try done. by destruct front_part.
Qed.

Lemma merge_loop_inv sl :
  merge_inv sl (fold_left (merge_step (vowel_set T)) sl ([], [])).
Proof.
  induction sl as [|s sl IH] using rev_ind.
  - by split_and!.
  - rewrite fold_left_app. simpl. by apply merge_step_inv.
Qed.

(** The merge pass returns the vowelled syllables, each with the vowels it
    had. *)
Lemma validate_syllables_counts sl :
  map (vowel_count T) (validate_syllables T sl)
  = filter (λ n, (0 < n)%nat) (map (vowel_count T) sl).
Proof. apply merge_loop_inv. Qed.

Lemma validate_syllables_vowelled sl :
  Forall (λ s, (0 < vowel_count T s)%nat) (validate_syllables T sl).
Proof.
  apply Forall_forall. intros s Hs.
  assert (vowel_count T s ∈ map (vowel_count T) (validate_syllables T sl))
    as Hin by (apply list_elem_of_In, in_map, list_elem_of_In, Hs).
  rewrite validate_syllables_counts in Hin.
  by apply list_elem_of_filter in Hin as [? _].
Qed.

Lemma validate_syllables_bound (k : nat) sl :
  Forall (λ s, (vowel_count T s ≤ k)%nat) sl →
  Forall (λ s, (vowel_count T s ≤ k)%nat) (validate_syllables T sl).
Proof.
  intros Hsl. apply Forall_forall. intros s Hs.
  assert (vowel_count T s ∈ map (vowel_count T) (validate_syllables T sl))
    as Hin by (apply list_elem_of_In, in_map, list_elem_of_In, Hs).
  rewrite validate_syllables_counts in Hin.
  apply list_elem_of_filter in Hin as [_ Hin].
  apply list_elem_of_In, in_map_iff in Hin as (s' & <- & Hs').
  rewrite Forall_forall in Hsl. apply Hsl. by apply list_elem_of_In.
Qed.

(** If the input has a vowel at all, the merge pass keeps every phoneme. *)
Lemma validate_syllables_concat sl :
  (0 < vowel_count T (concat sl))%nat →
  concat (validate_syllables T sl) = concat sl.
Proof.
  intros Hpos. destruct (merge_loop_inv sl) as (_ & Hfront & Hnil & Hcons).
  unfold validate_syllables.
  destruct (fold_left (merge_step (vowel_set T)) sl ([], [])) as [valid front].
  simpl in *. destruct valid as [|x valid]; [|by apply Hcons].
  rewrite Hnil in Hpos by done. lia.
Qed.
End Repair.

Section Split.
Variable T : SyllableTokenizer.
Implicit Types (c v : string) (s syl pre post : list string).
Implicit Types (sl acc out : list (list string)).

(** Once a first vowel is recorded, the inner loop only watches for a
    second one. *)
Lemma vowel_scan_found s : ∀ (g : nat → nat) (first_vowel_i : Z) (mv : bool),
  first_vowel_i ≠ -1 →
  fold_left (vowel_scan_step (vowel_set T)) (imap (λ i x, (g i, x)) s)
    (first_vowel_i, mv)
  = (first_vowel_i, mv || bool_decide (0 < vowel_count T s)%nat).
Proof.
  induction s as [|c s IH]; intros g fvi mv Hne.
  - simpl. by rewrite orb_false_r.
  - rewrite imap_cons. cbn [fold_left vowel_scan_step snd].
    change ((λ (i : nat) (x : string), (g i, x)) ∘ S)
      with (λ (i : nat) (x : string), ((g ∘ S) i, x)).
    rewrite vowel_count_cons. destruct (decide (c ∈ vowels T)) as [Hc|Hc].
    + rewrite bool_decide_eq_true_2 by (by apply in_vowel_set).
      destruct (Z.eqb_spec fvi (-1)) as [|_]; [done|].
      rewrite IH by done. rewrite (bool_decide_eq_true_2 (0 < 1 + _)%nat) by lia.
      by rewrite orb_true_r.
    + rewrite bool_decide_eq_false_2 by (by rewrite in_vowel_set).
      by rewrite IH.
Qed.

Lemma vowel_scan_none s : ∀ (g : nat → nat),
  vowel_count T s = 0%nat →
  fold_left (vowel_scan_step (vowel_set T)) (imap (λ i x, (g i, x)) s)
    (-1, false)
  = (-1, false).
Proof.
  induction s as [|c s IH]; intros g; [done|].
  rewrite vowel_count_cons, imap_cons. cbn [fold_left vowel_scan_step snd].
  change ((λ (i : nat) (x : string), (g i, x)) ∘ S)
    with (λ (i : nat) (x : string), ((g ∘ S) i, x)).
  destruct (decide (c ∈ vowels T)) as [Hc|Hc]; [lia|].
  rewrite bool_decide_eq_false_2 by (by rewrite in_vowel_set).
  intros. apply IH. lia.
Qed.

Lemma vowel_scan_first pre v post : ∀ (g : nat → nat),
  vowel_count T pre = 0%nat → v ∈ vowels T →
  fold_left (vowel_scan_step (vowel_set T))
    (imap (λ i x, (g i, x)) (pre ++ v :: post)) (-1, false)
  = (Z.of_nat (g (length pre)), bool_decide (0 < vowel_count T post)%nat).
Proof.
  induction pre as [|c pre IH]; intros g Hpre Hv.
  - simpl app. rewrite imap_cons. cbn [fold_left vowel_scan_step snd fst].
    change ((λ (i : nat) (x : string), (g i, x)) ∘ S)
      with (λ (i : nat) (x : string), ((g ∘ S) i, x)).
    rewrite bool_decide_eq_true_2 by (by apply in_vowel_set).
    simpl. rewrite vowel_scan_found by lia. done.
  - rewrite vowel_count_cons in Hpre.
    simpl app. rewrite imap_cons. cbn [fold_left vowel_scan_step snd fst].
    change ((λ (i : nat) (x : string), (g i, x)) ∘ S)
      with (λ (i : nat) (x : string), ((g ∘ S) i, x)).
    rewrite bool_decide_eq_false_2.
    + rewrite IH; [done| |done]. case_decide; lia.
    + rewrite in_vowel_set. intros Hc. rewrite decide_True in Hpre by done.
      lia.
Qed.

Lemma slice_to_first pre v post :
  py_slice_to (pre ++ v :: post) (Z.of_nat (length pre) + 1) = pre ++ [v].
Proof.
  unfold py_slice_to, slice_bound. rewrite length_app. simpl.
  destruct (Z.ltb_spec (Z.of_nat (length pre) + 1) 0) as [|_]; [lia|].
  replace (Z.to_nat _) with (length (pre ++ [v]))
    by (rewrite length_app; simpl; lia).
  replace (pre ++ v :: post) with ((pre ++ [v]) ++ post)
    by (by rewrite <- app_assoc).
  by rewrite take_app_length.
Qed.

Lemma slice_from_first pre v post :
  py_slice_from (pre ++ v :: post) (Z.of_nat (length pre) + 1) = post.
Proof.
  unfold py_slice_from, slice_bound. rewrite length_app. simpl.
  destruct (Z.ltb_spec (Z.of_nat (length pre) + 1) 0) as [|_]; [lia|].
  replace (Z.to_nat _) with (length (pre ++ [v]))
    by (rewrite length_app; simpl; lia).
  replace (pre ++ v :: post) with ((pre ++ [v]) ++ post)
    by (by rewrite <- app_assoc).
  by rewrite drop_app_length.
Qed.

(** The assertion fails exactly on a syllable without a vowel. *)
Lemma split_step_no_vowel acc s :
  vowel_count T s = 0%nat →
  split_step (vowel_set T) (Ok acc) s = Raise AssertionError.
Proof.
  intros Hs. unfold split_step, vowel_scan, enumerate. simpl.
  by rewrite (vowel_scan_none s (λ i, i)).
Qed.

Lemma split_step_vowelled acc pre v post :
  vowel_count T pre = 0%nat → v ∈ vowels T →
  split_step (vowel_set T) (Ok acc) (pre ++ v :: post)
  = Ok (acc ++ if bool_decide (0 < vowel_count T post)%nat
               then [pre ++ [v]; post]
               else [pre ++ v :: post]).
Proof.
  intros Hpre Hv. unfold split_step, vowel_scan, enumerate. simpl.
  rewrite (vowel_scan_first pre v post (λ i, i)) by done.
  destruct (Z.gtb_spec (Z.of_nat (length pre)) (-1)) as [_|]; [|lia].
  rewrite slice_to_first, slice_from_first.
  by destruct (bool_decide (0 < vowel_count T post)%nat).
Qed.

(** On vowelled syllables the split pass succeeds and only cuts; on
    syllables of at most two vowels it leaves one vowel in each piece. *)
Lemma validate_syllables2_acc sl : ∀ acc,
  Forall (λ s, (0 < vowel_count T s)%nat) sl →
  ∃ out,
    fold_left (split_step (vowel_set T)) sl (Ok acc) = Ok (acc ++ out) ∧
    concat out = concat sl ∧
    (Forall (λ s, (vowel_count T s ≤ 2)%nat) sl →
     Forall (λ s, vowel_count T s = 1%nat) out).
Proof.
  induction sl as [|s sl IH]; intros acc Hpos.
  - exists []. rewrite app_nil_r. by split_and!.
  - apply Forall_cons in Hpos as [Hs Hpos].
    destruct (first_vowel_split T s Hs) as (pre & v & post & -> & Hpre & Hv).
    cbn [fold_left]. rewrite split_step_vowelled by done.
    destruct (IH (acc ++ if bool_decide (0 < vowel_count T post)%nat
                         then [pre ++ [v]; post]
                         else [pre ++ v :: post]) Hpos)
      as (out & Hfold & Hcat & Hone).
    assert (vowel_count T (pre ++ [v]) = 1%nat) as Hpv.
    { rewrite vowel_count_app, Hpre, vowel_count_cons, decide_True by done.
      done. }
    exists ((if bool_decide (0 < vowel_count T post)%nat
             then [pre ++ [v]; post]
             else [pre ++ v :: post]) ++ out).
    rewrite Hfold, app_assoc. split_and!; [done| |].
    + rewrite concat_app, Hcat. f_equal.
      case_bool_decide; simpl; rewrite ?app_nil_r, <- ?app_assoc; done.
    + intros [Hs2 Hsl]%Forall_cons. apply Forall_app. split; [|by apply Hone].
      rewrite vowel_count_app, Hpre, vowel_count_cons, decide_True in Hs2
        by done.
      case_bool_decide as Hpost.
      * repeat constructor; [done | lia].
      * repeat constructor.
        rewrite vowel_count_app, Hpre, vowel_count_cons, decide_True by done.
        lia.
Qed.

Lemma validate_syllables2_ok sl :
  Forall (λ s, (0 < vowel_count T s)%nat) sl →
  ∃ out,
    validate_syllables2 T sl = Ok out ∧
    concat out = concat sl ∧
    (Forall (λ s, (vowel_count T s ≤ 2)%nat) sl →
     Forall (λ s, vowel_count T s = 1%nat) out).
Proof. intros H. apply (validate_syllables2_acc sl [] H). Qed.
End Split.

(** ** [tokenize] as a whole *)

Section Tokenize.
Variable T : SyllableTokenizer.
Implicit Types (c : string) (s token : list string).
Implicit Types (sl syls : list (list string)).

(** The shortcut of [tokenize]. *)
Lemma tokenize_short token :
  (vowel_total T token ≤ 1)%nat → tokenize T token = Ok [token].
Proof.
  intros H. unfold tokenize.
  destruct (Nat.leb_spec (vowel_total T token) 1); [done | lia].
Qed.

(** The assertion of the split pass holds in every run. *)
Lemma tokenize_no_assertion token :
  tokenize T token ≠ Raise AssertionError.
Proof.
  unfold tokenize. destruct (vowel_total T token <=? 1)%nat; [done|].
  destruct (head (assign_values T token)) as [[first_phoneme ?]|]; [|done].
  destruct (last (assign_values T token)) as [[last_phoneme ?]|]; [|done].
  destruct (fold_left scan_step _ _) as [sl syl].
  destruct (validate_syllables2_ok T
              (validate_syllables T (sl ++ [syl ++ [last_phoneme]])))
    as (out & -> & _); [|done].
  apply validate_syllables_vowelled.
Qed.

Hypothesis wf : wf_tokenizer T.

Lemma vowels_mapped c : c ∈ vowels T → is_Some (phoneme_map T !! c).
Proof. destruct wf as (_ & top & Hv & _). intros Hc. rewrite Hv; eauto. Qed.

Lemma vowel_count_mapped token :
  vowel_count T (mapped T token) = vowel_count T token.
Proof.
  unfold mapped. induction token as [|c token IH]; [done|].
  rewrite filter_cons. destruct (decide (is_Some (phoneme_map T !! c))) as [Hm|Hm].
  - by rewrite !vowel_count_cons, IH.
  - rewrite IH, vowel_count_cons, decide_False; [done|].
    intros Hc. by apply Hm, vowels_mapped.
Qed.

Lemma vowel_le_top (top : Z) s :
  (∀ c, c ∈ vowels T → phoneme_map T !! c = Some top) →
  (vowel_count T s ≤ top_count T top s)%nat.
Proof.
  intros Hv. unfold vowel_count, top_count.
  induction s as [|c s IH]; [done|].
  rewrite !filter_cons. destruct (decide (c ∈ vowels T)) as [Hc|Hc].
  - rewrite decide_True by (by apply Hv). simpl. lia.
  - case_decide; simpl; lia.
Qed.

(** With two vowels or more the scan runs, both repair passes succeed, the
    result spells the ranked phonemes and has one vowel per syllable. *)
Lemma tokenize_long token :
  (1 < vowel_count T token)%nat →
  ∃ syls,
    tokenize T token = Ok syls ∧
    concat syls = mapped T token ∧
    Forall (λ s, vowel_count T s = 1%nat) syls.
Proof.
  intros Hvc. pose proof wf as (Hnd & top & Hv & Hle).
  unfold tokenize. rewrite vowel_total_count by done.
  destruct (Nat.leb_spec (vowel_count T token) 1) as [|_]; [lia|].
  pose proof (assign_values_fst T token) as Hfst.
  pose proof (assign_values_rank T token) as Hrank.
  pose proof (vowel_count_mapped token) as Hm. rewrite <- Hfst in Hm.
  destruct (assign_values T token) as [|p [|f l]].
  { simpl in Hm. rewrite vowel_count_nil in Hm. lia. }
  { simpl in Hm. rewrite vowel_count_cons, vowel_count_nil in Hm.
    case_decide; lia. }
  destruct (last (f :: l)) as [q|] eqn:Hlast;
    [|by destruct l using rev_ind; [|rewrite app_comm_cons, last_snoc in Hlast]].
  rewrite last_cons_cons, Hlast. cbn [head].
  destruct p as [first_phoneme pv], q as [last_phoneme qv].
  destruct (fold_left scan_step _ _) as [sl syl] eqn:Hscan.
  pose proof (scan_concat (f :: l) _ _ _ _ _ _ Hlast Hscan) as Hcat.
  cbn [fst concat app] in Hcat. 
  change (first_phoneme :: map fst (f :: l))
    with (map fst ((first_phoneme, pv) :: f :: l)) in Hcat.
  rewrite Hfst in Hcat.
  assert (Forall (λ s, (top_count T top s ≤ 2)%nat)
            (sl ++ [syl ++ [last_phoneme]])) as Htop.
  { apply (scan_top_count T top Hle (f :: l) [] [first_phoneme]
             (first_phoneme, pv) (last_phoneme, qv) sl syl);
      [done | done | constructor | | | done].
    - apply Forall_cons in Hrank as [Hp _]. cbn [fst snd] in Hp.
      rewrite (top_count_single T top _ _ Hp). case_decide; lia.
    - apply Forall_cons in Hrank as [Hp _]. cbn [fst snd] in *.
      rewrite (top_count_single T top _ _ Hp).
      case_decide; lia. }
  assert (Forall (λ s, (vowel_count T s ≤ 2)%nat)
            (sl ++ [syl ++ [last_phoneme]])) as Hvow.
  { eapply Forall_impl; [exact Htop|]. intros s Hs. simpl in Hs.
    pose proof (vowel_le_top top s Hv). lia. }
  destruct (validate_syllables2_ok T
              (validate_syllables T (sl ++ [syl ++ [last_phoneme]])))
    as (out & Hout & Hcat2 & Hone); [apply validate_syllables_vowelled|].
  exists out. split_and!; [done | |].
  - rewrite Hcat2, validate_syllables_concat, Hcat; [done|].
    rewrite Hcat, vowel_count_mapped. lia.
  - by apply Hone, validate_syllables_bound.
Qed.

(** Both cases in one statement. *)
Lemma tokenize_spec token :
  if decide (vowel_count T token ≤ 1)%nat
  then tokenize T token = Ok [token]
  else ∃ syls,
    tokenize T token = Ok syls ∧
    concat syls = mapped T token ∧
    Forall (λ s, vowel_count T s = 1%nat) syls.
Proof.
  case_decide as H.
  - apply tokenize_short. destruct wf as [Hnd _].
    by rewrite vowel_total_count.
  - apply tokenize_long. lia.
Qed.
End Tokenize.

(** ** Syllable lists that the merge pass leaves alone *)

Section MergeProps.
Variable T : SyllableTokenizer.
Implicit Types (s : list string) (sl valid : list (list string)).

Lemma merge_loop_vowelled sl : ∀ valid,
  Forall (λ s, (0 < vowel_count T s)%nat) sl →
  fold_left (merge_step (vowel_set T)) sl (valid, []) = (valid ++ sl, []).
Proof.
  induction sl as [|s sl IH]; intros valid Hsl.
  - by rewrite app_nil_r.
  - apply Forall_cons in Hsl as [Hs Hsl]. cbn [fold_left merge_step].
    apply has_vowel_count in Hs. rewrite Hs. cbn [negb app].
    replace (if Nat.eqb (length valid) 0
             then (valid ++ [s], @nil string) else (valid ++ [s], []))
      with (valid ++ [s], @nil string) by (by destruct (Nat.eqb _ _)).
    rewrite IH by done. by rewrite <- app_assoc.
Qed.

Lemma validate_syllables_fixed sl :
  Forall (λ s, (0 < vowel_count T s)%nat) sl → validate_syllables T sl = sl.
Proof.
  intros Hsl. unfold validate_syllables.
  by rewrite (merge_loop_vowelled sl []).
Qed.

Lemma vowelled_iff s :
  (0 < vowel_count T s)%nat ↔ ∃ c, c ∈ s ∧ c ∈ vowels T.
Proof.
  split.
  - intros Hs.
    destruct (first_vowel_split T s Hs) as (pre & v & post & -> & _ & Hv).
    exists v. split; [|done]. apply elem_of_app. right. apply list_elem_of_here.
  - intros (c & Hc & Hv). apply list_elem_of_split in Hc as (l1 & l2 & ->).
    rewrite vowel_count_app, vowel_count_cons, decide_True by done. lia.
Qed.
End MergeProps.

Lemma vowel_total_none (T : SyllableTokenizer) (token : list string) :
  vowel_count T token = 0%nat → vowel_total T token = 0%nat.
Proof.
  unfold vowel_total. induction token as [|c token IH].
  - intros _. induction (vowels T) as [|x vs IHv]; [done | exact IHv].
  - rewrite vowel_count_cons, sum_count_cons.
    destruct (decide (c ∈ vowels T)) as [Hc|Hc]; [lia|].
    intros H. rewrite IH by lia. rewrite Nat.add_0_r.
    clear -Hc. induction (vowels T) as [|x vs IHv]; [done|].
    simpl. rewrite decide_False by (intros ->; apply Hc, list_elem_of_here).
    apply IHv. intros Hin. by apply Hc, list_elem_of_further.
Qed.

(** A tokenizer whose vowels all have a rank never runs out of ranked
    phonemes after the shortcut, so [tokenize] returns. *)
Lemma tokenize_total (T : SyllableTokenizer) (token : list string) :
  (∀ c, c ∈ vowels T → is_Some (phoneme_map T !! c)) →
  ∃ syls, tokenize T token = Ok syls.
Proof.
  intros Hmapped. unfold tokenize.
  destruct (Nat.leb_spec (vowel_total T token) 1) as [|Hgt]; [eauto|].
  assert (0 < vowel_count T token)%nat as Hpos.
  { destruct (vowel_count T token) eqn:E; [|lia].
    rewrite (vowel_total_none T token E) in Hgt. lia. }
  apply vowelled_iff in Hpos as (v & Hin & Hv).
  assert (v ∈ map fst (assign_values T token)) as Hsv.
  { rewrite assign_values_fst. apply list_elem_of_filter. split; [|done].
    by apply Hmapped. }
  destruct (assign_values T token) as [|[first_phoneme r] sv] eqn:E;
    [by apply not_elem_of_nil in Hsv|].
  cbn [head].
  destruct (last ((first_phoneme, r) :: sv)) as [[last_phoneme r']|] eqn:El.
  2:{ rewrite last_cons in El. by destruct (last sv). }
  destruct (fold_left scan_step _ _) as [sl syl].
  destruct (validate_syllables2_ok T
              (validate_syllables T (sl ++ [syl ++ [last_phoneme]])))
    as (out & Hout & _); [apply validate_syllables_vowelled | eauto].
Qed.

(** ** Tokenizers whose vowels all have a rank *)

Section Ranked.
Variable T : SyllableTokenizer.
Hypothesis Hranked : vowels_ranked T.
Implicit Types (c : string) (token : list string).

Lemma vowel_count_ranked token :
  vowel_count T (mapped T token) = vowel_count T token.
Proof.
  unfold mapped. induction token as [|c token IH]; [done|].
  rewrite filter_cons. destruct (decide (is_Some (phoneme_map T !! c))) as [Hm|Hm].
  - by rewrite !vowel_count_cons, IH.
  - rewrite IH, vowel_count_cons, decide_False; [done|].
    intros Hc. by apply Hm, Hranked.
Qed.

(** [tokenize] returns; the shortcut returns the input whole, and once two
    ranked phonemes take part in the scan the syllables spell the ranked
    phonemes of the input. *)
Lemma tokenize_cover token :
  ∃ syls,
    tokenize T token = Ok syls ∧
    ((vowel_total T token ≤ 1)%nat → syls = [token]) ∧
    ((1 < vowel_total T token)%nat → (2 ≤ length (mapped T token))%nat →
     concat syls = mapped T token).
Proof.
  unfold tokenize.
  destruct (Nat.leb_spec (vowel_total T token) 1) as [Hle|Hgt].
  { exists [token]. split_and!; [done | done | lia]. }
  assert (0 < vowel_count T token)%nat as Hpos.
  { destruct (vowel_count T token) eqn:E; [|lia].
    rewrite (vowel_total_none T token E) in Hgt. lia. }
  pose proof (assign_values_fst T token) as Hfst.
  pose proof (vowel_count_ranked token) as Hm. rewrite <- Hfst in Hm.
  destruct (assign_values T token) as [|p [|f l]].
  { simpl in Hm. rewrite vowel_count_nil in Hm. lia. }
  { destruct p as [first_phoneme pv]. cbn [head last].
    destruct (fold_left scan_step _ _) as [sl syl].
    destruct (validate_syllables2_ok T
                (validate_syllables T (sl ++ [syl ++ [first_phoneme]])))
      as (out & Hout & _); [apply validate_syllables_vowelled|].
    exists out. split_and!; [done | lia |].
    intros _ Hlen. rewrite <- Hfst in Hlen. simpl in Hlen. lia. }
  destruct (last (f :: l)) as [q|] eqn:Hlast;
    [|by destruct l using rev_ind; [|rewrite app_comm_cons, last_snoc in Hlast]].
  rewrite last_cons_cons, Hlast. cbn [head].
  destruct p as [first_phoneme pv], q as [last_phoneme qv].
  destruct (fold_left scan_step _ _) as [sl syl] eqn:Hscan.
  pose proof (scan_concat (f :: l) _ _ _ _ _ _ Hlast Hscan) as Hcat.
  cbn [fst concat app] in Hcat.
  change (first_phoneme :: map fst (f :: l))
    with (map fst ((first_phoneme, pv) :: f :: l)) in Hcat.
  rewrite Hfst in Hcat.
  destruct (validate_syllables2_ok T
              (validate_syllables T (sl ++ [syl ++ [last_phoneme]])))
    as (out & Hout & Hcat2 & _); [apply validate_syllables_vowelled|].
  exists out. split_and!; [done | lia |].
  intros _ _. rewrite Hcat2, validate_syllables_concat, Hcat; [done|].
  rewrite Hcat, vowel_count_ranked. lia.
Qed.

(** With a duplicate-free vowel list the two cases are told apart by the
    number of vowels of the input. *)
Lemma tokenize_cover_nodup token :
  NoDup (vowels T) →
  ∃ syls,
    tokenize T token = Ok syls ∧
    ((vowel_count T token ≤ 1)%nat → syls = [token]) ∧
    ((1 < vowel_count T token)%nat → concat syls = mapped T token).
Proof.
  intros Hnd. destruct (tokenize_cover token) as (syls & Htok & Hle & Hgt).
  rewrite vowel_total_count in Hle, Hgt by done.
  exists syls. split_and!; [done | done |].
  intros Hvc. apply Hgt; [done|].
  rewrite <- vowel_count_ranked in Hvc.
  pose proof (length_filter (λ c, c ∈ vowels T) (mapped T token)) as Hlen.
  unfold vowel_count in Hvc. lia.
Qed.

(** Two vowels are cut into two syllables of one phoneme. *)
Lemma tokenize_two_vowels (a b : string) :
  NoDup (vowels T) → a ∈ vowels T → b ∈ vowels T →
  tokenize T [a; b] = Ok [[a]; [b]].
Proof.
  intros Hnd Ha Hb.
  assert (vowel_count T [a; b] = 2%nat) as Hvc.
  { by rewrite !vowel_count_cons, !decide_True, vowel_count_nil. }
  destruct (Hranked a Ha) as [ra Hra], (Hranked b Hb) as [rb Hrb].
  unfold tokenize. rewrite vowel_total_count, Hvc by done.
  cbn [Nat.leb]. unfold assign_values. cbn [fold_left]. rewrite Hra, Hrb.
  cbn. rewrite validate_syllables_fixed.
  2:{ repeat constructor. rewrite Hvc. lia. }
  unfold validate_syllables2. cbn [fold_left].
  change [a; b] with ([] ++ a :: [b]).
  rewrite (split_step_vowelled T [] [] a [b]) by (by rewrite ?vowel_count_nil).
  rewrite bool_decide_eq_true_2; [done|].
  rewrite vowel_count_cons, decide_True by done. lia.
Qed.
End Ranked.

(** ** The default tokenizer *)

Lemma init_default : __init__ str_upper "en" None = Ok SSP.
Proof. reflexivity. Qed.

Lemma SSP_wf : wf_tokenizer SSP.
Proof.
  split; [|exists 5; split].
  - apply (bool_decide_unpack _). vm_compute. exact I.
  - intros c Hc.
    assert (Forall (λ c, phoneme_map SSP !! c = Some 5) (vowels SSP)) as H
      by (apply (bool_decide_unpack _); vm_compute; exact I).
    rewrite Forall_forall in H. by apply H.
  - assert (map_Forall (λ _ r, r ≤ 5) (phoneme_map SSP)) as H
      by (apply (bool_decide_unpack _); vm_compute; exact I).
    intros c r Hc. by apply (H c r).
Qed.

Lemma SSP_vowels_ranked : vowels_ranked SSP.
Proof. exact (vowels_mapped SSP SSP_wf). Qed.

Lemma SSP_vowels_nodup : NoDup (vowels SSP).
Proof. exact (proj1 SSP_wf). Qed.

(** ** Examples from the module's self-test *)

Example tokenize_wonderful :
  tokenize SSP ["W"; "AH1"; "N"; "D"; "ER0"; "F"; "AH0"; "L"]%string
  = Ok [["W"; "AH1"; "N"]; ["D"; "ER0"]; ["F"; "AH0"; "L"]]%string.
Proof. vm_compute. reflexivity. Qed.

(** ** Properties of [tokenize] *)

Lemma mapped_all (T : SyllableTokenizer) (token : list string) :
  Forall (λ c, is_Some (phoneme_map T !! c)) token → mapped T token = token.
Proof.
  unfold mapped. induction 1 as [|c token Hc _ IH]; [done|].
  by rewrite filter_cons_True, IH.
Qed.

(** Claim C4. Example 5 of the specification, the sixth call of the
    module's self-test: on the default tokenizer the sequence comes back in
    these six syllables. *)
Example tokenize_extraordinary :
  tokenize SSP ["EH2"; "K"; "S"; "T"; "R"; "AH0"; "AO1"; "R"; "D"; "AH0"; "N";
                "EH2"; "R"; "IY0"]%string
  = Ok [["EH2"; "K"; "S"]; ["T"; "R"; "AH0"]; ["AO1"; "R"]; ["D"; "AH0"];
        ["N"; "EH2"]; ["R"; "IY0"]]%string.
Proof. vm_compute. reflexivity. Qed.

(** A symbol without a rank between two vowels is lost. *)
Lemma coverage_drops_unmapped : ¬ covers_input SSP.
Proof.
  intros H.
  specialize (H ["AH0"; "XX"; "AH1"]%string [["AH0"]; ["AH1"]]%string).
  discriminate H. vm_compute. reflexivity.
Qed.

(** Claim C1, as amended. For a tokenizer whose vowel list names no vowel
    twice and whose vowels all have an entry in the phoneme map, [tokenize]
    returns, and its syllables in order spell the input when it has at most
    one vowel, and the input without the symbols that have no entry
    otherwise; so they spell the input whenever every symbol has an entry. *)
Theorem tokenize_coverage (T : SyllableTokenizer)
    (Hnodup : NoDup (vowels T)) (Hranked : vowels_ranked T)
    (token : list string) :
  ∃ syls,
    tokenize T token = Ok syls ∧
    concat syls = (if decide (vowel_count T token ≤ 1)%nat
                   then token else mapped T token) ∧
    (Forall (λ c, is_Some (phoneme_map T !! c)) token → concat syls = token).
Proof.
  destruct (tokenize_cover_nodup T Hranked token Hnodup)
    as (syls & Htok & Hle & Hgt).
  exists syls. split; [done|].
  destruct (decide (vowel_count T token ≤ 1)%nat) as [Hvc|Hvc].
  - rewrite Hle by done. simpl. by rewrite app_nil_r.
  - rewrite Hgt by lia. split; [done|]. intros Hall. by apply mapped_all.
Qed.

Lemma tokenize_coverage_witness :
  ∃ syls,
    tokenize SSP ["W"; "AH1"; "N"; "D"; "ER0"; "F"; "AH0"; "L"]%string = Ok syls ∧
    concat syls
    = (if decide (vowel_count SSP
                    ["W"; "AH1"; "N"; "D"; "ER0"; "F"; "AH0"; "L"]%string ≤ 1)%nat
       then ["W"; "AH1"; "N"; "D"; "ER0"; "F"; "AH0"; "L"]%string
       else mapped SSP ["W"; "AH1"; "N"; "D"; "ER0"; "F"; "AH0"; "L"]%string) ∧
    (Forall (λ c, is_Some (phoneme_map SSP !! c))
       ["W"; "AH1"; "N"; "D"; "ER0"; "F"; "AH0"; "L"]%string →
     concat syls = ["W"; "AH1"; "N"; "D"; "ER0"; "F"; "AH0"; "L"]%string).
Proof. apply (tokenize_coverage SSP SSP_vowels_nodup SSP_vowels_ranked). Defined.




(** Claim C3. The assertion of the split pass: whatever the merge pass
    returns has a vowel in every syllable, the split pass succeeds on it, and
    no call of [tokenize] ends in an assertion failure. *)
Theorem split_pass_assertion_holds (T : SyllableTokenizer) :
  (∀ sl, Forall (λ s, ∃ c, c ∈ s ∧ c ∈ vowels T) (validate_syllables T sl)) ∧
  (∀ sl, ∃ out, validate_syllables2 T (validate_syllables T sl) = Ok out) ∧
  (∀ token, tokenize T token ≠ Raise AssertionError).
Proof.
  split_and!.
  - intros sl. eapply Forall_impl; [apply validate_syllables_vowelled|].
    intros s Hs. simpl in Hs.
    destruct (first_vowel_split T s Hs) as (pre & v & post & -> & _ & Hv).
    exists v. split; [|done]. apply elem_of_app. right. apply list_elem_of_here.
  - intros sl.
    destruct (validate_syllables2_ok T (validate_syllables T sl))
      as (out & Hout & _); [apply validate_syllables_vowelled | eauto].
  - apply tokenize_no_assertion.
Qed.

(** Claim C10. The empty sequence comes back as one empty syllable, so a
    returned syllable need not be non-empty. *)
Theorem tokenize_empty (T : SyllableTokenizer) :
  tokenize T [] = Ok [[]] ∧
  ¬ (∀ token syls, tokenize T token = Ok syls → Forall (λ s, s ≠ []) syls).
Proof.
  assert (tokenize T [] = Ok [[]]) as Hnil.
  { apply tokenize_short. unfold vowel_total.
    induction (vowels T) as [|x vs IH]; simpl; [lia | exact IH]. }
  split; [done|]. intros H. specialize (H [] [[]] Hnil).
  by apply Forall_cons in H as [? _].
Qed.

(** ** Sequences of one or two phonemes *)

(** Two vowels are two syllables: the split pass cuts after the first. *)
Lemma two_vowels_are_split : ¬ short_never_split SSP.
Proof.
  intros H. specialize (H ["AH0"; "AO1"]%string (or_intror eq_refl)).
  assert (tokenize SSP ["AH0"; "AO1"]%string = Ok [["AH0"]; ["AO1"]]%string)
    as E by (vm_compute; reflexivity).
  rewrite E in H. discriminate H.
Qed.

(** Claim C5, as amended. For a tokenizer whose vowel list names no vowel
    twice and whose vowels all have an entry in the phoneme map: a sequence
    of one phoneme, or of two that are not both vowels, comes back whole; two
    vowels come back as two syllables of one phoneme. *)
Theorem tokenize_short_input (T : SyllableTokenizer)
    (Hnodup : NoDup (vowels T)) (Hranked : vowels_ranked T)
    (token : list string)
    (Hlen : (length token = 1 ∨ length token = 2)%nat) :
  tokenize T token
  = Ok (if decide (length token = 2%nat ∧ Forall (λ c, c ∈ vowels T) token)
        then map (λ c, [c]) token
        else [token]).
Proof.
  assert (∀ token', (vowel_count T token' ≤ 1)%nat →
                    tokenize T token' = Ok [token']) as Hwhole.
  { intros token' Hvc. apply tokenize_short. by rewrite vowel_total_count. }
  destruct token as [|a [|b [|? ?]]]; simpl in Hlen; try lia.
  - rewrite decide_False by (simpl; lia).
    apply Hwhole. unfold vowel_count. apply (length_filter _ [a]).
  - destruct (decide (a ∈ vowels T)) as [Ha|Ha],
             (decide (b ∈ vowels T)) as [Hb|Hb].
    + rewrite decide_True by (split; [done | by repeat constructor]).
      by apply tokenize_two_vowels.
    + rewrite decide_False.
      * apply Hwhole.
        rewrite !vowel_count_cons, vowel_count_nil, decide_True, decide_False
          by done. lia.
      * intros [_ Hall]. apply Forall_cons in Hall as [_ Hall].
        by apply Forall_cons in Hall as [? _].
    + rewrite decide_False.
      * apply Hwhole.
        rewrite !vowel_count_cons, vowel_count_nil, decide_False, decide_True
          by done. lia.
      * intros [_ Hall]. by apply Forall_cons in Hall as [? _].
    + rewrite decide_False.
      * apply Hwhole.
        rewrite !vowel_count_cons, vowel_count_nil, !decide_False by done. lia.
      * intros [_ Hall]. by apply Forall_cons in Hall as [? _].
Qed.

Lemma tokenize_short_input_witness :
  tokenize SSP ["AH0"; "AO1"]%string
  = Ok (if decide (length ["AH0"; "AO1"]%string = 2%nat ∧
                   Forall (λ c, c ∈ vowels SSP) ["AH0"; "AO1"]%string)
        then map (λ c, [c]) ["AH0"; "AO1"]%string
        else [["AH0"; "AO1"]%string]).
Proof.
  apply (tokenize_short_input SSP SSP_vowels_nodup SSP_vowels_ranked
           ["AH0"; "AO1"]%string).
  right. reflexivity.
Defined.

(** ** The constructor *)

Section InitProps.
Variable upper : string → string.
Implicit Types (c k : string) (m : gmap string Z) (level : list string).
Implicit Types (h : list (list string)).

Lemma register_keeps lvl m c k :
  is_Some (m !! k) → is_Some (register upper lvl m c !! k).
Proof.
  intros Hk. unfold register.
  destruct (decide (upper c = k)) as [->|?];
    [rewrite lookup_insert_eq; eauto | rewrite lookup_insert_ne by done].
  destruct (decide (c = k)) as [->|?];
    [rewrite lookup_insert_eq; eauto | by rewrite lookup_insert_ne].
Qed.

Lemma register_adds lvl m c :
  is_Some (register upper lvl m c !! c) ∧
  is_Some (register upper lvl m c !! upper c).
Proof.
  unfold register. split; [|rewrite lookup_insert_eq; eauto].
  destruct (decide (upper c = c)) as [->|?];
    [rewrite lookup_insert_eq; eauto | rewrite lookup_insert_ne by done].
  rewrite lookup_insert_eq; eauto.
Qed.

Lemma register_all_keeps lvl level : ∀ m k,
  is_Some (m !! k) → is_Some (fold_left (register upper lvl) level m !! k).
Proof.
  induction level as [|c level IH]; intros m k Hk; [done|].
  simpl. by apply IH, register_keeps.
Qed.

Lemma register_all_adds lvl level c : ∀ m,
  c ∈ level →
  is_Some (fold_left (register upper lvl) level m !! c) ∧
  is_Some (fold_left (register upper lvl) level m !! upper c).
Proof.
  induction level as [|x level IH]; intros m Hc;
    [by apply not_elem_of_nil in Hc|].
  simpl. apply elem_of_cons in Hc as [->|Hc]; [|by apply IH].
  destruct (register_adds lvl m x). split; by apply register_all_keeps.
Qed.

Lemma register_levels_keeps n (items : list (nat * list string)) : ∀ m k,
  is_Some (m !! k) →
  is_Some (fold_left (register_level upper n) items m !! k).
Proof.
  induction items as [|il items IH]; intros m k Hk; [done|].
  simpl. by apply IH, register_all_keeps.
Qed.

Lemma register_levels_adds n (items : list (nat * list string)) i level c :
  ∀ m, (i, level) ∈ items → c ∈ level →
  is_Some (fold_left (register_level upper n) items m !! c) ∧
  is_Some (fold_left (register_level upper n) items m !! upper c).
Proof.
  induction items as [|il items IH]; intros m Hin Hc;
    [by apply not_elem_of_nil in Hin|].
  simpl. apply elem_of_cons in Hin as [<-|Hin]; [|by apply IH].
  destruct (register_all_adds (n - Z.of_nat i) level c m Hc).
  split; by apply register_levels_keeps.
Qed.

(** Every symbol of every level is a key, and so is its upper-cased
    spelling. *)
Lemma build_phoneme_map_keys h level c :
  level ∈ h → c ∈ level →
  is_Some (build_phoneme_map upper h !! c) ∧
  is_Some (build_phoneme_map upper h !! upper c).
Proof.
  intros Hlevel Hc. apply list_elem_of_lookup in Hlevel as [i Hi].
  apply (register_levels_adds _ _ i level); [|done].
  unfold enumerate. apply elem_of_lookup_imap. eauto.
Qed.
(** *** Ranks of the built map *)

Lemma register_bound (n lvl : Z) m c :
  lvl ≤ n →
  map_Forall (λ _ r, r ≤ n) m →
  map_Forall (λ _ r, r ≤ n) (register upper lvl m c).
Proof.
  intros Hl Hm. unfold register.
  apply map_Forall_insert_2; [exact Hl|].
  apply map_Forall_insert_2; [exact Hl | exact Hm].
Qed.

Lemma register_all_bound (n lvl : Z) level : ∀ m,
  lvl ≤ n →
  map_Forall (λ _ r, r ≤ n) m →
  map_Forall (λ _ r, r ≤ n) (fold_left (register upper lvl) level m).
Proof.
  induction level as [|c level IH]; intros m Hl Hm; [done|].
  simpl. by apply IH, register_bound.
Qed.

Lemma register_levels_bound (n : Z) (items : list (nat * list string)) : ∀ m,
  map_Forall (λ _ r, r ≤ n) m →
  map_Forall (λ _ r, r ≤ n) (fold_left (register_level upper n) items m).
Proof.
  induction items as [|[i level] items IH]; intros m Hm; [done|].
  simpl. apply IH. unfold register_level. simpl.
  apply register_all_bound; [lia | done].
Qed.

(** No rank exceeds the number of levels. *)
Lemma build_phoneme_map_bound h c r :
  build_phoneme_map upper h !! c = Some r → r ≤ Z.of_nat (length h).
Proof.
  intros Hc.
  apply (register_levels_bound (Z.of_nat (length h)) (enumerate h) ∅
           (map_Forall_empty _) c r Hc).
Qed.

Lemma register_same lvl m c k :
  m !! k = Some lvl → register upper lvl m c !! k = Some lvl.
Proof.
  intros Hk. unfold register.
  destruct (decide (upper c = k)) as [->|?];
    [by rewrite lookup_insert_eq | rewrite lookup_insert_ne by done].
  destruct (decide (c = k)) as [->|?];
    [by rewrite lookup_insert_eq | by rewrite lookup_insert_ne].
Qed.

Lemma register_all_same lvl level : ∀ m k,
  m !! k = Some lvl → fold_left (register upper lvl) level m !! k = Some lvl.
Proof.
  induction level as [|c level IH]; intros m k Hk; [done|].
  simpl. by apply IH, register_same.
Qed.

(** Within one level every symbol ends with the rank of the level. *)
Lemma register_all_value lvl level c : ∀ m,
  c ∈ level → fold_left (register upper lvl) level m !! c = Some lvl.
Proof.
  induction level as [|x level IH]; intros m Hc;
    [by apply not_elem_of_nil in Hc|].
  simpl. apply elem_of_cons in Hc as [->|Hc]; [|by apply IH].
  apply register_all_same. unfold register.
  destruct (decide (upper x = x)) as [->|?];
    [by rewrite lookup_insert_eq | rewrite lookup_insert_ne by done].
  by rewrite lookup_insert_eq.
Qed.

Lemma register_other lvl m c k :
  k ≠ c → k ≠ upper c → register upper lvl m c !! k = m !! k.
Proof.
  intros ??. unfold register. by rewrite !lookup_insert_ne.
Qed.

Lemma register_all_other lvl level k : ∀ m,
  Forall (λ c, k ≠ c ∧ k ≠ upper c) level →
  fold_left (register upper lvl) level m !! k = m !! k.
Proof.
  induction level as [|c level IH]; intros m Hk; [done|].
  apply Forall_cons in Hk as [[??] Hk].
  simpl. by rewrite IH, register_other.
Qed.

Lemma register_levels_other n (items : list (nat * list string)) k : ∀ m,
  Forall (λ il, Forall (λ c, k ≠ c ∧ k ≠ upper c) il.2) items →
  fold_left (register_level upper n) items m !! k = m !! k.
Proof.
  induction items as [|il items IH]; intros m Hk; [done|].
  apply Forall_cons in Hk as [Hhere Hk].
  simpl. rewrite IH by done. by apply register_all_other.
Qed.

(** A hierarchy whose vowels are listed once and are not spelled again, as
    they are or upper-cased, by a symbol of a lower level. *)
Definition vowels_apart (level0 : list string) (rest : list (list string))
  : Prop :=
  NoDup level0 ∧
  ∀ level c, level ∈ rest → c ∈ level → (c ∉ level0) ∧ (upper c ∉ level0).

(** Such a hierarchy gives a well-formed tokenizer. *)
Lemma init_wf lang level0 rest T :
  vowels_apart level0 rest →
  __init__ upper lang (Some (level0 :: rest)) = Ok T →
  wf_tokenizer T.
Proof.
  intros [Hnd Hapart] [= <-]. split; [done|].
  exists (Z.of_nat (length (level0 :: rest))). cbn [vowels phoneme_map]. split.
  - intros c Hc. unfold build_phoneme_map, enumerate.
    rewrite imap_cons. cbn [fold_left].
    rewrite register_levels_other.
    + unfold register_level. cbn [fst snd].
      rewrite Z.sub_0_r. by apply register_all_value.
    + apply Forall_forall. intros [i level] Hil.
      apply elem_of_lookup_imap in Hil as (j & level' & Heq & Hj).
      injection Heq as -> ->.
      apply Forall_forall. intros c' Hc'. cbn [snd] in Hc'.
      destruct (Hapart level' c') as [H1 H2];
        [by eapply list_elem_of_lookup_2 | done |].
      split; intros ->; done.
  - intros c r. apply build_phoneme_map_bound.
Qed.
End InitProps.

(** Every tokenizer the constructor builds has its vowels in the map, and
    its vowel list is the first level of the hierarchy in effect. *)
Lemma init_vowels_ranked (upper : string → string) (lang : string)
    (sonority_hierarchy : option (list (list string)))
    (T : SyllableTokenizer) :
  __init__ upper lang sonority_hierarchy = Ok T →
  vowels_ranked T ∧
  head <$> hierarchy_in_effect lang sonority_hierarchy = Some (Some (vowels T)).
Proof.
  unfold __init__.
  destruct (hierarchy_in_effect lang sonority_hierarchy) as [[|level0 rest]|];
    try done.
  intros [= <-]. split; [|done]. intros c Hc. simpl in *.
  apply (build_phoneme_map_keys upper (level0 :: rest) level0 c);
    [apply list_elem_of_here | done].
Qed.

(** An empty hierarchy passed with the default language is silently replaced
    by the English one. *)
Lemma empty_hierarchy_accepted : ¬ rejects_malformed str_upper.
Proof.
  intros H. destruct (H "en"%string [] (or_introl eq_refl)) as [e He].
  discriminate He.
Qed.

(** Claim C6, as amended. The constructor never inspects the hierarchy. An
    empty one stands for no hierarchy given (the English default when the
    language is [en], an [IndexError] on reading level 0 otherwise); any
    other one is taken as it is, the first level as the vowels, empty or
    not. *)
Theorem init_explicit_hierarchy (upper : string → string) (lang : string) :
  __init__ upper lang (Some [])
  = (if String.eqb lang "en" then Ok (default_tokenizer upper)
     else Raise IndexError) ∧
  (∀ level0 rest,
     __init__ upper lang (Some (level0 :: rest))
     = Ok {| vowels := level0;
             phoneme_map := build_phoneme_map upper (level0 :: rest) |}) ∧
  (∀ rest,
     ∃ T, __init__ upper lang (Some ([] :: rest)) = Ok T ∧ vowels T = [] ∧
          ∀ level c, level ∈ rest → c ∈ level → is_Some (phoneme_map T !! c)).
Proof.
  split_and!.
  - unfold __init__, hierarchy_in_effect. simpl. by destruct (String.eqb lang "en").
  - intros level0 rest. reflexivity.
  - intros rest. eexists. split; [|split].
    + reflexivity.
    + done.
    + intros level c Hlevel Hc. simpl.
      apply (build_phoneme_map_keys upper ([] :: rest) level c); [|done].
      by apply list_elem_of_further.
Qed.

(** The lower-cased spelling of a default vowel has no rank. *)
Lemma lower_case_lookup_fails :
  ¬ lookup_ignores_case str_upper SSP default_hierarchy.
Proof.
  intros H.
  assert (is_Some (phoneme_map SSP !! "ah0"%string)) as [r Hr].
  { apply (H (vowels SSP) "AH0"%string "ah0"%string).
    - apply list_elem_of_here.
    - apply (bool_decide_unpack _). vm_compute. exact I.
    - reflexivity. }
  assert (phoneme_map SSP !! "ah0"%string = None) as Hn
    by (vm_compute; reflexivity).
  congruence.
Qed.

(** Claim C7, as amended. Every symbol of the hierarchy in effect has a rank
    under its own spelling and under its upper-cased spelling; a string that
    is neither a symbol of the hierarchy nor the upper-cased spelling of one
    has no entry, so its lookup fails. *)
Theorem lookup_registered (upper : string → string) (lang : string)
    (sonority_hierarchy : option (list (list string)))
    (h : list (list string)) (T : SyllableTokenizer)
    (Hh : hierarchy_in_effect lang sonority_hierarchy = Some h)
    (HT : __init__ upper lang sonority_hierarchy = Ok T) :
  (∀ level c, level ∈ h → c ∈ level →
     is_Some (phoneme_map T !! c) ∧ is_Some (phoneme_map T !! upper c)) ∧
  (∀ k, (∀ level c, level ∈ h → c ∈ level → k ≠ c ∧ k ≠ upper c) →
        phoneme_map T !! k = None).
Proof.
  unfold __init__ in HT. rewrite Hh in HT.
  destruct h as [|level0 rest]; [done|]. injection HT as <-. simpl. split.
  - intros level c. apply build_phoneme_map_keys.
  - intros k Hk. unfold build_phoneme_map.
    rewrite register_levels_other; [apply lookup_empty|].
    apply Forall_forall. intros [i level] Hin. simpl.
    unfold enumerate in Hin.
    apply elem_of_lookup_imap in Hin as (i' & level' & [= -> ->] & Hlevel).
    apply list_elem_of_lookup_2 in Hlevel.
    apply Forall_forall. intros c Hc. by apply (Hk level').
Qed.

Lemma lookup_registered_witness :
  (is_Some (phoneme_map SSP !! "EL"%string) ∧
   is_Some (phoneme_map SSP !! str_upper "EL"%string)) ∧
  phoneme_map SSP !! "ah0"%string = None.
Proof.
  destruct (lookup_registered str_upper "en" None default_hierarchy SSP
              eq_refl eq_refl) as [Hsome Hnone].
  split.
  - apply (Hsome ["L"; "EL"; "R"; "DX"; "NX"]%string "EL"%string).
    + apply (bool_decide_unpack _). vm_compute. exact I.
    + apply (bool_decide_unpack _). vm_compute. exact I.
  - apply Hnone.
    assert (Forall (Forall (λ c, "ah0"%string ≠ c ∧ "ah0"%string ≠ str_upper c))
              default_hierarchy) as Hall
      by (apply (bool_decide_unpack _); vm_compute; exact I).
    intros level c Hlevel Hc. rewrite Forall_forall in Hall.
    specialize (Hall level Hlevel). rewrite Forall_forall in Hall.
    by apply Hall.
Defined.

(** ** Script segmentation *)

Section SegmenterProps.
Variable in_cn : N → bool.
Implicit Types (c : N) (s text seg run tail : py_str) (segs : list py_str).

Lemma span_app (class : N → bool) text run tail :
  span class text = (run, tail) → text = run ++ tail.
Proof.
  revert run tail. induction text as [|c text IH]; intros run tail; simpl.
  - by intros [= <- <-].
  - destruct (class c); [|by intros [= <- <-]].
    destruct (span class text) as [run' tail'] eqn:E.
    intros [= <- <-]. simpl. f_equal. by apply IH.
Qed.

Lemma match_here_app text seg tail :
  match_here in_cn text = Some (seg, tail) → text = seg ++ tail ∧ seg ≠ [].
Proof.
  unfold match_here.
  destruct (span in_cn text) as [[|c run] t1] eqn:E1.
  - destruct (span (λ c, negb (in_cn c)) text) as [[|c run] t2] eqn:E2; [done|].
    intros [= <- <-]. split; [by apply (span_app _ _ _ _ E2) | done].
  - intros [= <- <-]. split; [by apply (span_app _ _ _ _ E1) | done].
Qed.

(** Every character is in the class or out of it, so the pattern matches at
    every position. *)
Lemma match_here_some c text : is_Some (match_here in_cn (c :: text)).
Proof.
  unfold match_here. simpl. destruct (in_cn c); simpl.
  - destruct (span in_cn text). eauto.
  - destruct (span (λ c, negb (in_cn c)) text). eauto.
Qed.

(** The matches tile the text: [length text] turns reach its end. *)
Lemma findall_from_concat (turns : nat) : ∀ text,
  (length text ≤ turns)%nat → concat (findall_from in_cn turns text) = text.
Proof.
  induction turns as [|turns IH]; intros [|c text] Hlen; simpl in *;
    [done | lia | done |].
  destruct (match_here_some c text) as [[seg tail] Hm].
  change (match_here in_cn (c :: text)) with (match_here in_cn (c :: text)).
  rewrite Hm. apply match_here_app in Hm as [Htext Hseg].
  simpl. rewrite IH; [done|].
  apply (f_equal length) in Htext. rewrite length_app in Htext. simpl in Htext.
  destruct seg; [done|]. simpl in Htext. lia.
Qed.

Lemma findall_from_nonempty (turns : nat) : ∀ text,
  Forall (λ seg, seg ≠ []) (findall_from in_cn turns text).
Proof.
  induction turns as [|turns IH]; intros [|c text]; simpl; try constructor.
  destruct (match_here in_cn (c :: text)) as [[seg tail]|] eqn:Hm; [|apply IH].
  constructor; [|apply IH]. by apply match_here_app in Hm as [_ ?].
Qed.

Lemma re_findall_concat text : concat (re_findall in_cn text) = text.
Proof. by apply findall_from_concat. Qed.

Lemma visible_lstrip s : visible (lstrip s) = visible s.
Proof.
  unfold visible. induction s as [|c s IH]; [done|]. cbn [lstrip].
  destruct (is_space c) eqn:E; [|done].
  rewrite IH, (filter_cons_False _ c s); [done | congruence].
Qed.

Lemma visible_rev s : visible (rev s) = rev (visible s).
Proof.
  unfold visible. induction s as [|c s IH]; [done|]. cbn [rev].
  rewrite filter_app, IH, (filter_cons _ c s).
  destruct (decide (is_space c = false)).
  - by rewrite filter_cons_True.
  - rewrite filter_cons_False by done. by rewrite app_nil_r.
Qed.

(** [strip] removes white space only. *)
Lemma visible_strip s : visible (strip s) = visible s.
Proof.
  unfold strip, rstrip.
  by rewrite visible_rev, visible_lstrip, visible_rev, rev_involutive,
    visible_lstrip.
Qed.

Lemma visible_concat segs :
  visible (concat segs) = concat (map visible segs).
Proof.
  unfold visible. induction segs as [|seg segs IH]; [done|].
  simpl. by rewrite filter_app, IH.
Qed.

Lemma visible_kept segs :
  concat (map visible (map strip (filter (λ seg, strip seg ≠ []) segs)))
  = concat (map visible segs).
Proof.
  induction segs as [|seg segs IH]; [done|].
  rewrite filter_cons. destruct (decide (strip seg ≠ [])) as [Hk|Hk].
  - simpl. by rewrite IH, visible_strip.
  - simpl. rewrite IH, <- (visible_strip seg).
    destruct (strip seg); [done | by destruct Hk].
Qed.

Lemma split_zh_en_nonempty text :
  Forall (λ seg, seg ≠ []) (split_zh_en in_cn text).
Proof.
  unfold split_zh_en. apply Forall_forall. intros seg Hseg.
  apply list_elem_of_In, in_map_iff in Hseg as (seg' & <- & Hin).
  apply list_elem_of_In, list_elem_of_filter in Hin as [? _]. done.
Qed.

Lemma split_zh_en_visible text :
  visible (concat (split_zh_en in_cn text)) = visible text.
Proof.
  unfold split_zh_en.
  rewrite visible_concat, visible_kept, <- visible_concat.
  by rewrite re_findall_concat.
Qed.

End SegmenterProps.

(** The segmentation of a text depends on the class of its own characters
    only. *)
Lemma span_ext (f g : N → bool) (text : py_str) :
  Forall (λ c, f c = g c) text → span f text = span g text.
Proof.
  induction 1 as [|c text Hc _ IH]; [done|].
  simpl. by rewrite Hc, IH.
Qed.

Lemma match_here_ext (f g : N → bool) (text : py_str) :
  Forall (λ c, f c = g c) text → match_here f text = match_here g text.
Proof.
  intros H. unfold match_here. rewrite (span_ext f g text H).
  rewrite (span_ext (λ c, negb (f c)) (λ c, negb (g c)) text); [done|].
  eapply Forall_impl; [exact H|]. simpl. by intros c ->.
Qed.

Lemma findall_from_ext (f g : N → bool) (turns : nat) : ∀ text : py_str,
  Forall (λ c, f c = g c) text →
  findall_from f turns text = findall_from g turns text.
Proof.
  induction turns as [|turns IH]; intros [|c text] H; try done.
  cbn [findall_from]. rewrite <- (match_here_ext f g (c :: text) H).
  destruct (match_here f (c :: text)) as [[seg tail]|] eqn:Hm.
  - f_equal. apply IH. apply match_here_app in Hm as [Htext _].
    rewrite Htext in H. by apply Forall_app in H as [_ ?].
  - apply IH. by apply Forall_cons in H as [_ ?].
Qed.

Lemma split_zh_en_sample (in_cn : N → bool) :
  classifies_sample in_cn → split_zh_en in_cn sample_text = sample_segments.
Proof.
  intros [Hin Hout].
  assert (Forall (λ c, in_cn c = cjk_unified c) sample_text) as Hsame.
  { rewrite Forall_forall in Hin, Hout.
    unfold sample_text. repeat constructor;
      first [ by rewrite Hin by (apply (bool_decide_unpack _); vm_compute; exact I)
            | by rewrite Hout by (apply (bool_decide_unpack _); vm_compute; exact I) ]. }
  unfold split_zh_en, re_findall.
  rewrite (findall_from_ext in_cn cjk_unified _ _ Hsame).
  vm_compute. reflexivity.
Qed.


(** ** The word aligner *)

Lemma emit_loop (ss : list (list string)) : ∀ syllables counts,
  fold_left emit_step ss (syllables, counts)
  = (syllables ++ map (String.concat " ") ss,
     counts ++ map (λ syl, Z.of_nat (length syl)) ss).
Proof.
  induction ss as [|syl ss IH]; intros syllables counts; simpl.
  - by rewrite !app_nil_r.
  - rewrite IH, <- !app_assoc. done.
Qed.

Lemma py_slice_in_range {A : Type} (l : list A) (start n : Z) :
  0 ≤ start → 0 ≤ n → start + n ≤ Z.of_nat (length l) →
  py_slice l start (start + n) = take (Z.to_nat n) (drop (Z.to_nat start) l).
Proof.
  intros Hs Hn Hlen. unfold py_slice, slice_bound.
  destruct (Z.ltb_spec start 0); [lia|].
  destruct (Z.ltb_spec (start + n) 0); [lia|].
  rewrite !Z.min_l by lia. do 2 f_equal. lia.
Qed.

Lemma Zsum_app (l1 l2 : list Z) : Zsum (l1 ++ l2) = Zsum l1 + Zsum l2.
Proof. unfold Zsum. induction l1 as [|x l1 IH]; simpl; lia. Qed.

Lemma Zsum_lengths (ss : list (list string)) :
  Zsum (map (λ syl, Z.of_nat (length syl)) ss) = Z.of_nat (length (concat ss)).
Proof.
  unfold Zsum. induction ss as [|s ss IH]; [done|].
  simpl. rewrite length_app, IH. lia.
Qed.

Section Aligner.
Variable T : SyllableTokenizer.
Hypothesis Hranked : vowels_ranked T.
Variable phones : list string.

Local Abbreviation word_ok := (word_ok T).

Lemma syllable_loop (phone_nums : list Z) : ∀ start syllables counts,
  0 ≤ start →
  Forall (λ n, 0 ≤ n) phone_nums →
  start + Zsum phone_nums ≤ Z.of_nat (length phones) →
  ∃ per_word,
    Forall2 word_ok
      (split_words (drop (Z.to_nat start) phones) phone_nums) per_word ∧
    fold_left (syllable_step T phones) phone_nums
      (Ok (start, (syllables, counts)))
    = Ok (start + Zsum phone_nums,
          (syllables ++ map (String.concat " ") (concat per_word),
           counts ++ map (λ syl, Z.of_nat (length syl)) (concat per_word))).
Proof.
  induction phone_nums as [|n phone_nums IH];
    intros start syllables counts Hstart Hnn Hsum.
  - exists []. simpl. rewrite !app_nil_r, Z.add_0_r. by split; [constructor|].
  - apply Forall_cons in Hnn as [Hn Hnn].
    change (Zsum (n :: phone_nums)) with (n + Zsum phone_nums) in *.
    assert (0 ≤ Zsum phone_nums) as Hrest.
    { clear -Hnn. induction Hnn as [|x l Hx _ IH]; [done|].
      change (Zsum (x :: l)) with (x + Zsum l). lia. }
    set (word := take (Z.to_nat n) (drop (Z.to_nat start) phones)).
    assert (length word = Z.to_nat n) as Hword.
    { unfold word. rewrite length_take, length_drop. lia. }
    assert (drop (Z.to_nat n) (drop (Z.to_nat start) phones)
            = drop (Z.to_nat (start + n)) phones) as Hdrop.
    { rewrite drop_drop. f_equal. lia. }
    cbn [fold_left syllable_step rbind split_words].
    rewrite py_slice_in_range by lia. fold word. rewrite Hdrop.
    destruct (Z.leb_spec n 2) as [Hshort|Hlong].
    + destruct (IH (start + n) (syllables ++ [String.concat " " word])
                  (counts ++ [n])) as (per_word & Hwords & Hfold);
        [lia | done | lia |].
      exists ([word] :: per_word). split.
      * constructor; [|done]. split; [|by intros; simpl; rewrite app_nil_r].
        unfold word_emitted. rewrite decide_True; [done | lia].
      * rewrite Hfold. simpl. rewrite <- !app_assoc. simpl.
        rewrite Hword, Z2Nat.id, Z.add_assoc by done. done.
    + assert (∃ syls, tokenize T word = Ok syls ∧
                (Forall (λ c, is_Some (phoneme_map T !! c)) word →
                 concat syls = word)) as (syls & Htok & Hcover).
      { destruct (tokenize_cover T Hranked word) as (syls & Htok & Hle & Hgt).
        exists syls. split; [done|]. intros Hall.
        destruct (decide (vowel_total T word ≤ 1)%nat) as [Hvt|Hvt].
        - rewrite Hle by done. simpl. by rewrite app_nil_r.
        - rewrite Hgt, mapped_all; [done | done | lia |].
          rewrite mapped_all by done. lia. }
      rewrite Htok. cbn [rbind]. rewrite emit_loop.
      destruct (IH (start + n)
                  (syllables ++ map (String.concat " ") syls)
                  (counts ++ map (λ syl, Z.of_nat (length syl)) syls))
        as (per_word & Hwords & Hfold); [lia | done | lia |].
      exists (syls :: per_word). split.
      * constructor; [|done]. split; [|done].
        unfold word_emitted. rewrite decide_False; [done | lia].
      * rewrite Hfold. simpl. rewrite !map_app, <- !app_assoc.
        do 2 f_equal. lia.
Qed.

Lemma split_words_concat (phone_nums : list Z) : ∀ l : list string,
  Forall (λ n, 0 ≤ n) phone_nums →
  Zsum phone_nums = Z.of_nat (length l) →
  concat (split_words l phone_nums) = l.
Proof.
  induction phone_nums as [|n phone_nums IH]; intros l Hnn Hsum.
  - destruct l; [done | simpl in Hsum; lia].
  - apply Forall_cons in Hnn as [Hn Hnn].
    change (Zsum (n :: phone_nums)) with (n + Zsum phone_nums) in Hsum.
    assert (0 ≤ Zsum phone_nums) as Hrest.
    { clear -Hnn. induction Hnn as [|x l' Hx _ IH']; [done|].
      change (Zsum (x :: l')) with (x + Zsum l'). lia. }
    simpl. rewrite IH; [apply take_drop | done |].
    rewrite length_drop. lia.
Qed.

Lemma words_spelled (words : list (list string))
    (per_word : list (list (list string))) :
  Forall2 word_ok words per_word →
  Forall (λ c, is_Some (phoneme_map T !! c)) (concat words) →
  concat (concat per_word) = concat words.
Proof.
  induction 1 as [|w ss words per_word [_ Hw] _ IH]; [done|].
  simpl. intros [Hhere Hrest]%Forall_app.
  by rewrite concat_app, Hw, IH.
Qed.
End Aligner.

Lemma split_words_lengths (phone_nums : list Z) : ∀ l : list string,
  Forall (λ n, 0 ≤ n) phone_nums →
  Zsum phone_nums ≤ Z.of_nat (length l) →
  Forall2 (λ word n, Z.of_nat (length word) = n)
    (split_words l phone_nums) phone_nums.
Proof.
  induction phone_nums as [|n phone_nums IH]; intros l Hnn Hsum;
    [constructor|].
  apply Forall_cons in Hnn as [Hn Hnn].
  change (Zsum (n :: phone_nums)) with (n + Zsum phone_nums) in Hsum.
  assert (0 ≤ Zsum phone_nums) as Hrest.
  { clear -Hnn. induction Hnn as [|x l' Hx _ IH']; [done|].
    change (Zsum (x :: l')) with (x + Zsum l'). lia. }
  simpl. constructor.
  - rewrite length_take. lia.
  - apply IH; [done|]. rewrite length_drop. lia.
Qed.

(** A word of three phones with a symbol that has no rank: two syllables,
    two phones counted. *)
Lemma counts_fall_short : ¬ counts_sum_to_length SSP.
Proof.
  intros H.
  specialize (H ["AH0"; "XX"; "AH1"]%string [3] ["AH0"; "AH1"]%string [1; 1]).
  assert (Zsum [1; 1] = 3) as Hbad; [|discriminate Hbad].
  apply H; vm_compute; reflexivity.
Qed.

(** Claim C9, as amended. For a tokenizer whose vowels all have an entry in
    the phoneme map, and non-negative per-word counts that sum to
    [len(phones)], [syllable] returns: the words are the consecutive slices
    of the given sizes and make up [phones]; the output lists, in word order,
    one syllable (the word itself) for a word of at most two phones and the
    syllables of [tokenize] for a longer word, each joined with spaces and
    paired with its length; the counts sum to [len(phones)] when every phone
    has an entry. *)
Theorem syllable_by_words (T : SyllableTokenizer) (Hranked : vowels_ranked T)
    (phones : list string) (phone_nums : list Z)
    (Hnn : Forall (λ n, 0 ≤ n) phone_nums)
    (Hsum : Zsum phone_nums = Z.of_nat (length phones)) :
  ∃ per_word : list (list (list string)),
    concat (split_words phones phone_nums) = phones ∧
    Forall2 (λ word n, Z.of_nat (length word) = n)
      (split_words phones phone_nums) phone_nums ∧
    Forall2 (word_emitted T) (split_words phones phone_nums) per_word ∧
    syllable T phones phone_nums
    = Ok (map (String.concat " ") (concat per_word),
          map (λ syl, Z.of_nat (length syl)) (concat per_word)) ∧
    (Forall (λ c, is_Some (phoneme_map T !! c)) phones →
     Zsum (map (λ syl, Z.of_nat (length syl)) (concat per_word))
     = Z.of_nat (length phones)).
Proof.
  destruct (syllable_loop T Hranked phones phone_nums 0 [] [])
    as (per_word & Hwords & Hfold); [lia | done | lia |].
  change (drop (Z.to_nat 0) phones) with phones in Hwords.
  pose proof (split_words_concat phone_nums phones Hnn Hsum) as Hcat.
  exists per_word. split_and!.
  - exact Hcat.
  - apply split_words_lengths; [done | lia].
  - eapply Forall2_impl; [exact Hwords|]. by intros w ss [? _].
  - unfold syllable. rewrite Hfold. reflexivity.
  - intros Hall. rewrite Zsum_lengths.
    rewrite (words_spelled T _ _ Hwords), Hcat; [done|]. by rewrite Hcat.
Qed.

Lemma syllable_by_words_witness :
  ∃ per_word : list (list (list string)),
    concat (split_words ["HH"; "AH0"; "L"; "OW1"; "AY1"]%string [4; 1])
    = ["HH"; "AH0"; "L"; "OW1"; "AY1"]%string ∧
    Forall2 (λ word n, Z.of_nat (length word) = n)
      (split_words ["HH"; "AH0"; "L"; "OW1"; "AY1"]%string [4; 1]) [4; 1] ∧
    Forall2 (word_emitted SSP)
      (split_words ["HH"; "AH0"; "L"; "OW1"; "AY1"]%string [4; 1]) per_word ∧
    syllable SSP ["HH"; "AH0"; "L"; "OW1"; "AY1"]%string [4; 1]
    = Ok (map (String.concat " ") (concat per_word),
          map (λ syl, Z.of_nat (length syl)) (concat per_word)) ∧
    (Forall (λ c, is_Some (phoneme_map SSP !! c))
       ["HH"; "AH0"; "L"; "OW1"; "AY1"]%string →
     Zsum (map (λ syl, Z.of_nat (length syl)) (concat per_word))
     = Z.of_nat (length ["HH"; "AH0"; "L"; "OW1"; "AY1"]%string)).
Proof.
  apply (syllable_by_words SSP SSP_vowels_ranked
           ["HH"; "AH0"; "L"; "OW1"; "AY1"]%string [4; 1]).
  - repeat constructor; lia.
  - reflexivity.
Defined.

(** Claim C8. For every text, [split_zh_en] returns non-empty segments only,
    and the characters of its segments that are not white space are, in
    order, those of the text; a character class that takes the four Chinese
    characters of ["你好Hello世界World"] and none of its Latin letters gives
    the four segments of the docstring. *)
Theorem split_zh_en_segments (in_cn : N → bool) :
  (∀ text,
     Forall (λ seg, seg ≠ []) (split_zh_en in_cn text) ∧
     visible (concat (split_zh_en in_cn text)) = visible text) ∧
  (classifies_sample in_cn →
   split_zh_en in_cn sample_text = sample_segments).
Proof.
  split.
  - intros text. split.
    + apply split_zh_en_nonempty.
    + apply split_zh_en_visible.
  - apply split_zh_en_sample.
Qed.

Lemma split_zh_en_segments_witness :
  classifies_sample cjk_unified ∧
  split_zh_en cjk_unified sample_text = sample_segments.
Proof.
  assert (classifies_sample cjk_unified) as H
    by (split; repeat constructor).
  split; [exact H|].
  exact (proj2 (split_zh_en_segments cjk_unified) H).
Defined.

(** * Further properties of the code *)

(** ** [ngrams] *)

Lemma heads_tails_drops {A : Type} (n : nat) : ∀ s : list A,
  heads_tails (map (λ i, drop i s) (seq 0 n))
  = if decide (n ≤ length s)%nat
    then Some (take n s, map (λ i, drop i (drop 1 s)) (seq 0 n))
    else None.
Proof.
  induction n as [|n IH]; intros s.
  - rewrite decide_True by lia. reflexivity.
  - assert (∀ (f : nat → list A),
              map f (seq 1 n) = map (λ i, f (S i)) (seq 0 n)) as Hshift.
    { intros f. by rewrite <- seq_shift, map_map. }
    cbn [seq map heads_tails]. rewrite !Hshift.
    destruct s as [|x t].
    + rewrite decide_False by (simpl; lia). reflexivity.
    + cbn [drop]. rewrite (IH t). cbn [length].
      destruct (decide (n ≤ length t)%nat).
      * rewrite decide_True by lia. cbn [take]. do 3 f_equal.
        apply List.map_ext. intros i. by rewrite drop_drop.
      * rewrite decide_False by lia. reflexivity.
Qed.

Lemma zip_turns_drops {A : Type} (n : nat) (turns : nat) : ∀ s : list A,
  (0 < n)%nat → (length s + 1 - n ≤ turns)%nat →
  zip_turns turns (map (λ i, drop i s) (seq 0 n))
  = map (λ i, take n (drop i s)) (seq 0 (length s + 1 - n)).
Proof.
  induction turns as [|turns IH]; intros s Hn Hlen.
  - replace (length s + 1 - n)%nat with 0%nat by lia. reflexivity.
  - cbn [zip_turns]. rewrite heads_tails_drops.
    destruct (decide (n ≤ length s)%nat) as [Hle|Hgt].
    + rewrite IH by (rewrite ?length_drop; lia). rewrite length_drop.
      replace (length s + 1 - n)%nat with (S (length s - 1 + 1 - n)) by lia.
      cbn [seq map]. f_equal. rewrite <- seq_shift, map_map.
      apply List.map_ext. intros i. by rewrite drop_drop.
    + replace (length s + 1 - n)%nat with 0%nat by lia. reflexivity.
Qed.

Lemma ngrams_windows {A : Type} (s : list A) (n : nat) (pl pr : bool)
    (a b : A) :
  ngrams s n pl pr a b
  = if decide (n = 0)%nat then []
    else windows n (pad_sequence s n pl pr a b).
Proof.
  unfold ngrams, py_zip. destruct n as [|n]; [done|].
  rewrite decide_False by lia.
  set (p := pad_sequence s (S n) pl pr a b).
  change (match map (λ i, drop i p) (seq 0 (S n)) with
          | [] => []
          | l :: _ => zip_turns (length l) (map (λ i, drop i p) (seq 0 (S n)))
          end)
    with (zip_turns (length p) (map (λ i, drop i p) (seq 0 (S n)))).
  apply zip_turns_drops; lia.
Qed.

Lemma windows_cons {A : Type} (n : nat) (x : A) (s : list A) :
  (0 < n ≤ S (length s))%nat →
  windows n (x :: s) = take n (x :: s) :: windows n s.
Proof.
  intros Hn. unfold windows. cbn [length].
  replace (S (length s) + 1 - n)%nat with (S (length s + 1 - n)) by lia.
  cbn [seq map]. f_equal. rewrite <- seq_shift, map_map.
  apply List.map_ext. intros i. reflexivity.
Qed.

Lemma windows_short {A : Type} (n : nat) (s : list A) :
  (length s < n)%nat → windows n s = [].
Proof.
  intros Hn. unfold windows.
  replace (length s + 1 - n)%nat with 0%nat by lia. reflexivity.
Qed.

Lemma windows_length {A : Type} (n : nat) (s : list A) :
  Forall (λ g, length g = n) (windows n s).
Proof.
  unfold windows. apply Forall_forall. intros g Hg.
  apply list_elem_of_In, in_map_iff in Hg as (i & <- & Hi).
  apply in_seq in Hi. rewrite length_take, length_drop. lia.
Qed.

Lemma lookups_take {A : Type} (l : list A) (k m : nat) :
  (m + k ≤ length l)%nat →
  omap (λ i, l !! i) (seq m k) = take k (drop m l).
Proof.
  revert l m. induction k as [|k IH]; intros l m Hk; [done|].
  cbn [seq omap list_omap].
  destruct (lookup_lt_is_Some_2 l m) as [x Hx]; [lia|].
  rewrite Hx. cbn. rewrite IH by lia.
  rewrite (drop_S l x m Hx). reflexivity.
Qed.

(** Property X1. Without padding, [ngrams] returns the windows of width [n]
    from left to right: none for [n = 0] or a sequence shorter than [n],
    [len - n + 1] otherwise, each of [n] items. *)
Theorem ngrams_unpadded {A : Type} (s : list A) (n : nat) (a b : A) :
  ngrams s n false false a b
  = (if decide (n = 0)%nat then [] else windows n s) ∧
  length (ngrams s n false false a b)
  = (if decide (n = 0)%nat then 0 else length s + 1 - n)%nat ∧
  Forall (λ g, length g = n) (ngrams s n false false a b).
Proof.
  rewrite ngrams_windows. unfold pad_sequence.
  destruct (decide (n = 0)%nat) as [->|Hn].
  - split_and!; [done | done | constructor].
  - split_and!; [done | | apply windows_length].
    unfold windows. by rewrite length_map, length_seq.
Qed.

(** Property X2. With padding on both sides there is one n-gram per item
    and [n - 1] more: the first items of the n-grams spell the left padding
    and the sequence, their last items the sequence and the right
    padding. *)
Theorem ngrams_padded {A : Type} (s : list A) (n : nat) (a b : A) :
  length (ngrams s (S n) true true a b) = (length s + n)%nat ∧
  omap head (ngrams s (S n) true true a b) = replicate n a ++ s ∧
  omap last (ngrams s (S n) true true a b) = s ++ replicate n b.
Proof.
  rewrite ngrams_windows, decide_False by lia.
  unfold pad_sequence. replace (S n - 1)%nat with n by lia.
  set (p := (replicate n a ++ s) ++ replicate n b).
  assert (length p = (length s + 2 * n)%nat) as Hp.
  { unfold p. rewrite !length_app, !length_replicate. lia. }
  unfold windows. rewrite Hp.
  replace (length s + 2 * n + 1 - S n)%nat with (length s + n)%nat by lia.
  split_and!.
  - by rewrite length_map, length_seq.
  - transitivity (omap (λ i, p !! i) (seq 0 (length s + n))).
    + generalize (seq 0 (length s + n)). intros l.
      induction l as [|i l IH]; [done|]. cbn [map omap list_omap].
      assert (head (take (S n) (drop i p)) = p !! i) as Hhead.
      { rewrite head_lookup, lookup_take, decide_True by lia.
        rewrite lookup_drop. by rewrite Nat.add_0_r. }
      by rewrite IH, Hhead.
    + rewrite lookups_take by lia. unfold p. rewrite drop_0.
      rewrite take_app_length'; [done|].
      rewrite length_app, length_replicate. lia.
  - assert (∀ l : list nat, Forall (λ i, i < length s + n)%nat l →
              omap last (map (λ i, take (S n) (drop i p)) l)
              = omap (λ i, p !! i) (Nat.add n <$> l)) as H.
    { induction 1 as [|i l Hi _ IH]; [done|].
      assert (last (take (S n) (drop i p)) = p !! (n + i)%nat) as Hlast.
      { rewrite last_lookup, length_take, length_drop.
        replace (pred (S n `min` (length p - i))) with n by lia.
        rewrite lookup_take, decide_True by lia. rewrite lookup_drop.
        f_equal. lia. }
      cbn [map omap list_omap fmap list_fmap]. by rewrite IH, Hlast. }
    rewrite H
      by (apply Forall_forall; intros i Hi%list_elem_of_In%in_seq; lia).
    rewrite fmap_add_seq, Nat.add_0_r.
    rewrite lookups_take by lia. unfold p.
    rewrite <- app_assoc, drop_app_length'; [|by rewrite length_replicate].
    apply take_ge. rewrite length_app, length_replicate. lia.
Qed.

(** Property X3. The trigram windows that [tokenize] scans are what the
    general [ngrams] returns for [n = 3] without padding. *)
Theorem ngrams3_is_ngrams {A : Type} (s : list A) (a b : A) :
  ngrams s 3 false false a b = map (λ '(x, y, z), [x; y; z]) (ngrams3 s).
Proof.
  rewrite ngrams_windows, decide_False by lia. unfold pad_sequence.
  induction s as [|x t IH]; [done|].
  destruct t as [|y [|z r]]; [done | done |].
  rewrite windows_cons by (simpl; lia). rewrite IH. reflexivity.
Qed.

Example ngrams_docstring :
  ngrams [1; 2; 3; 4; 5] 3 false false 0 0 = [[1; 2; 3]; [2; 3; 4]; [3; 4; 5]] ∧
  ngrams [1; 2; 3; 4; 5] 2 false true 0 0
  = [[1; 2]; [2; 3]; [3; 4]; [4; 5]; [5; 0]] ∧
  ngrams [1; 2; 3; 4; 5] 2 true false 0 0
  = [[0; 1]; [1; 2]; [2; 3]; [3; 4]; [4; 5]].
Proof. split_and!; reflexivity. Qed.

(** ** [assign_values] *)

(** Property X4. [assign_values] never raises: it returns, in the order of
    the input, exactly the symbols that have an entry in the phoneme map,
    each paired with its rank, and it works through a sequence piece by
    piece. *)
Theorem assign_values_ranked (T : SyllableTokenizer)
    (token1 token2 : list string) :
  map fst (assign_values T token1) = mapped T token1 ∧
  Forall (λ p, phoneme_map T !! p.1 = Some p.2) (assign_values T token1) ∧
  (length (assign_values T token1) ≤ length token1)%nat ∧
  assign_values T (token1 ++ token2)
  = assign_values T token1 ++ assign_values T token2.
Proof.
  split_and!.
  - apply assign_values_fst.
  - apply assign_values_rank.
  - rewrite <- (length_map fst), assign_values_fst.
    unfold mapped. apply length_filter.
  - rewrite !assign_values_omap. apply omap_app.
Qed.

(** ** The merge pass *)

(** Property X5. The merge pass returns nothing, and so loses every phoneme
    it was given, exactly when no syllable has a vowel. *)
Theorem validate_syllables_nil (T : SyllableTokenizer)
    (syllable_list : list (list string)) :
  validate_syllables T syllable_list = [] ↔
  Forall (λ s, ∀ c, c ∈ s → c ∉ vowels T) syllable_list.
Proof.
  pose proof (validate_syllables_counts T syllable_list) as Hc.
  assert (∀ s, vowel_count T s = 0%nat ↔ ∀ c, c ∈ s → c ∉ vowels T) as Hzero.
  { intros s. split.
    - intros Hs c Hin Hv.
      assert (0 < vowel_count T s)%nat by (apply vowelled_iff; eauto). lia.
    - intros Hs. destruct (vowel_count T s) eqn:E; [done|].
      assert (0 < vowel_count T s)%nat as Hpos by lia.
      apply vowelled_iff in Hpos as (c & Hin & Hv). by destruct (Hs c Hin). }
  split.
  - intros Hnil. rewrite Hnil in Hc. simpl in Hc.
    apply Forall_forall. intros s Hs. apply Hzero.
    destruct (vowel_count T s) eqn:E; [done|].
    assert (vowel_count T s ∈
              filter (λ n, (0 < n)%nat) (map (vowel_count T) syllable_list))
      as Hin.
    { apply list_elem_of_filter. split; [lia|].
      by apply list_elem_of_In, in_map, list_elem_of_In. }
    rewrite <- Hc in Hin. by apply not_elem_of_nil in Hin.
  - intros Hall.
    destruct (validate_syllables T syllable_list) as [|s out] eqn:E; [done|].
    assert (vowel_count T s ∈
              filter (λ n, (0 < n)%nat) (map (vowel_count T) syllable_list))
      as Hin by (rewrite <- Hc; apply list_elem_of_here).
    apply list_elem_of_filter in Hin as [Hpos Hin].
    apply list_elem_of_In, in_map_iff in Hin as (s' & Hs' & Hin').
    rewrite Forall_forall in Hall.
    apply list_elem_of_In in Hin'. specialize (Hall s' Hin').
    apply Hzero in Hall. lia.
Qed.

(** Property X6. The merge pass leaves a list alone in which every syllable
    has a vowel; so running it a second time changes nothing. *)
Theorem validate_syllables_idempotent (T : SyllableTokenizer)
    (syllable_list : list (list string)) :
  (Forall (λ s, ∃ c, c ∈ s ∧ c ∈ vowels T) syllable_list →
   validate_syllables T syllable_list = syllable_list) ∧
  validate_syllables T (validate_syllables T syllable_list)
  = validate_syllables T syllable_list.
Proof.
  split.
  - intros Hall. apply validate_syllables_fixed.
    eapply Forall_impl; [exact Hall|]. intros s Hs. by apply vowelled_iff.
  - apply validate_syllables_fixed, validate_syllables_vowelled.
Qed.

(** *** The merge pass on list objects *)

Section MergeObjs.
Variable T : SyllableTokenizer.
Implicit Types (h : heap) (o : obj) (r : nat) (v front : list string).
Implicit Types (valid : list obj) (rest : list nat).

Lemma deref_extend_same h o v : deref (extend h o v) o = deref h o ++ v.
Proof.
  destruct o as [|r]; [done|]. simpl. unfold read. by rewrite lookup_insert_eq.
Qed.

Lemma deref_extend_other h o o' v :
  o' ≠ o → deref (extend h o v) o' = deref h o'.
Proof.
  intros Hne. destruct o as [|r], o' as [|r']; try done.
  simpl. unfold read. rewrite lookup_insert_ne; [done | congruence].
Qed.

(** One turn of the loop on objects does what the turn on values does, as
    long as the object read is none of the objects stored so far; the objects
    still to come are left as they were. *)
Lemma merge_step_objs_simulate h valid front r rest :
  r ∉ rest → NoDup valid → (∀ r', Ref r' ∈ valid → r' ∉ r :: rest) →
  ∃ h1 valid1 front1,
    merge_step_objs (vowel_set T) (h, valid, front) r = (h1, valid1, front1) ∧
    merge_step (vowel_set T) (map (deref h) valid, front) (deref h (Ref r))
    = (map (deref h1) valid1, front1) ∧
    NoDup valid1 ∧
    (∀ r', Ref r' ∈ valid1 → r' ∉ rest) ∧
    (∀ r', r' ∈ rest → deref h1 (Ref r') = deref h (Ref r')).
Proof.
  intros Hr Hvalid Hdisj. unfold merge_step_objs, merge_step.
  assert (∀ r', Ref r' ∈ valid → r' ∉ rest) as Hdisj'.
  { intros r' Hin. specialize (Hdisj r' Hin).
    by apply not_elem_of_cons in Hdisj as [_ ?]. }
  destruct (has_vowel (vowel_set T) (deref h (Ref r))); cbn [negb].
  - destruct valid as [|o valid'].
    + exists (Heap (cells h) (front ++ deref h (Ref r))), [Fresh], front.
      split_and!; [done | done | apply NoDup_singleton | | done].
      intros r' Hin. by apply list_elem_of_singleton in Hin.
    + exists h, ((o :: valid') ++ [Ref r]), front.
      split_and!; [done | by rewrite map_app | | | done].
      * apply NoDup_app. split_and!; [done | | apply NoDup_singleton].
        intros o' Ho' ->%list_elem_of_singleton.
        apply (Hdisj r Ho'), list_elem_of_here.
      * intros r' [Hin|Hin]%elem_of_app; [by apply Hdisj'|].
        apply list_elem_of_singleton in Hin. by injection Hin as ->.
  - destruct valid as [|o init _] using rev_ind.
    + by exists h, [], (front ++ deref h (Ref r)).
    + rewrite !length_map, !length_app, Nat.add_1_r. cbn [Nat.eqb length].
      rewrite last_snoc.
      apply NoDup_app in Hvalid as (Hinit & Hlast & _).
      exists (extend h o (deref h (Ref r))), (init ++ [o]), front.
      split_and!; [done | | | done |].
      * rewrite !map_app. cbn [map].
        rewrite extend_last_snoc, deref_extend_same. do 2 f_equal.
        apply map_ext_in. intros o' Ho'%list_elem_of_In.
        symmetry. apply deref_extend_other. intros ->.
        apply (Hlast o Ho'), list_elem_of_here.
      * apply NoDup_app. split_and!; [done | done | apply NoDup_singleton].
      * intros r' Hin. apply deref_extend_other. intros <-.
        apply (Hdisj' r'); [|done]. apply elem_of_app. right.
        apply list_elem_of_here.
Qed.

Lemma merge_objs_simulate rest : ∀ h valid front,
  NoDup rest → NoDup valid → (∀ r, Ref r ∈ valid → r ∉ rest) →
  fold_left (merge_step (vowel_set T)) (map (λ r, deref h (Ref r)) rest)
    (map (deref h) valid, front)
  = (map (deref (fold_left (merge_step_objs (vowel_set T)) rest
                   (h, valid, front)).1.1)
       (fold_left (merge_step_objs (vowel_set T)) rest (h, valid, front)).1.2,
     (fold_left (merge_step_objs (vowel_set T)) rest (h, valid, front)).2).
Proof.
  induction rest as [|r rest IH]; intros h valid front Hrest Hvalid Hdisj;
    [done|].
  apply NoDup_cons in Hrest as [Hr Hrest].
  destruct (merge_step_objs_simulate h valid front r rest Hr Hvalid Hdisj)
    as (h1 & valid1 & front1 & Hobj & Hpure & Hnd1 & Hdisj1 & Hsame).
  cbn [fold_left map]. rewrite Hobj, Hpure, <- (IH h1 valid1 front1) by done.
  f_equal. apply map_ext_in. intros r' Hr'%list_elem_of_In.
  symmetry. by apply Hsame.
Qed.

(** On distinct list objects the method returns what the fold on values
    computes. *)
Lemma validate_syllables_objs_values (σ : gmap nat (list string)) rest :
  NoDup rest →
  validate_syllables_objs T σ rest = validate_syllables T (map (read σ) rest).
Proof.
  intros Hrest. unfold validate_syllables_objs, validate_syllables.
  assert (∀ r, Ref r ∈ [] → r ∉ rest) as Hnone
    by (intros r Hin; by apply not_elem_of_nil in Hin).
  pose proof (merge_objs_simulate rest (Heap σ []) [] [] Hrest NoDup_nil_2
                Hnone) as Hsim.
  change (map (λ r, deref (Heap σ []) (Ref r)) rest)
    with (map (read σ) rest) in Hsim.
  change (map (deref (Heap σ [])) []) with (@nil (list string)) in Hsim.
  rewrite Hsim.
  by destruct (fold_left (merge_step_objs _) _ _) as [[h' valid'] front'].
Qed.
End MergeObjs.

(** Property X27. A list object that occurs twice in the input: [["ER0"]] is
    stored as the second entry, grows by [["T"]], and is stored again in its
    grown state. On four distinct objects of the same values the last
    syllable is [["ER0"]]. *)
Example validate_syllables_shared_object :
  validate_syllables_objs SSP
    (<[0%nat := ["AH0"]]> (<[1%nat := ["ER0"]]> (<[2%nat := ["T"]]> ∅)))%string
    [0; 1; 2; 1]%nat
  = [["AH0"]; ["ER0"; "T"]; ["ER0"; "T"]]%string ∧
  validate_syllables SSP [["AH0"]; ["ER0"]; ["T"]; ["ER0"]]%string
  = [["AH0"]; ["ER0"; "T"]; ["ER0"]]%string.
Proof. split; vm_compute; reflexivity. Qed.

(** Property X7. On a list of distinct list objects the merge pass returns
    what the fold on their values computes: one syllable for each input
    syllable that has a vowel, in order and with the same number of vowels,
    and as soon as the input has a vowel at all no phoneme is lost. *)
Theorem validate_syllables_regroups (T : SyllableTokenizer)
    (σ : gmap nat (list string)) (syllable_list : list nat)
    (Hdistinct : NoDup syllable_list) :
  validate_syllables_objs T σ syllable_list
  = validate_syllables T (map (read σ) syllable_list) ∧
  map (vowel_count T) (validate_syllables_objs T σ syllable_list)
  = filter (λ n, (0 < n)%nat)
      (map (vowel_count T) (map (read σ) syllable_list)) ∧
  (length (validate_syllables_objs T σ syllable_list)
   ≤ length syllable_list)%nat ∧
  ((∃ c, c ∈ concat (map (read σ) syllable_list) ∧ c ∈ vowels T) →
   concat (validate_syllables_objs T σ syllable_list)
   = concat (map (read σ) syllable_list)).
Proof.
  rewrite (validate_syllables_objs_values T σ syllable_list Hdistinct).
  pose proof (validate_syllables_counts T (map (read σ) syllable_list)) as Hc.
  split_and!; [done | done | |].
  - rewrite <- (length_map (vowel_count T)), Hc.
    etrans; [apply length_filter|]. by rewrite !length_map.
  - intros Hv. apply validate_syllables_concat. by apply vowelled_iff.
Qed.

Lemma validate_syllables_regroups_witness :
  validate_syllables_objs SSP
    (<[0%nat := ["T"]]> (<[1%nat := ["AH0"]]> (<[2%nat := ["N"]]> ∅)))%string
    [0; 1; 2]%nat
  = validate_syllables SSP
      (map (read (<[0%nat := ["T"]]> (<[1%nat := ["AH0"]]>
                    (<[2%nat := ["N"]]> ∅)))%string) [0; 1; 2]%nat) ∧
  map (vowel_count SSP)
    (validate_syllables_objs SSP
       (<[0%nat := ["T"]]> (<[1%nat := ["AH0"]]> (<[2%nat := ["N"]]> ∅)))%string
       [0; 1; 2]%nat)
  = filter (λ n, (0 < n)%nat)
      (map (vowel_count SSP)
         (map (read (<[0%nat := ["T"]]> (<[1%nat := ["AH0"]]>
                       (<[2%nat := ["N"]]> ∅)))%string) [0; 1; 2]%nat)) ∧
  (length
     (validate_syllables_objs SSP
        (<[0%nat := ["T"]]> (<[1%nat := ["AH0"]]> (<[2%nat := ["N"]]> ∅)))%string
        [0; 1; 2]%nat)
   ≤ length [0; 1; 2]%nat)%nat ∧
  ((∃ c, c ∈ concat
             (map (read (<[0%nat := ["T"]]> (<[1%nat := ["AH0"]]>
                           (<[2%nat := ["N"]]> ∅)))%string) [0; 1; 2]%nat) ∧
         c ∈ vowels SSP) →
   concat
     (validate_syllables_objs SSP
        (<[0%nat := ["T"]]> (<[1%nat := ["AH0"]]> (<[2%nat := ["N"]]> ∅)))%string
        [0; 1; 2]%nat)
   = concat
       (map (read (<[0%nat := ["T"]]> (<[1%nat := ["AH0"]]>
                     (<[2%nat := ["N"]]> ∅)))%string) [0; 1; 2]%nat)).
Proof.
  apply (validate_syllables_regroups SSP).
  apply (bool_decide_unpack _). vm_compute. exact I.
Defined.

(** ** The split pass *)

Section SplitProps.
Variable T : SyllableTokenizer.
Implicit Types (s pre post : list string) (sl acc out : list (list string)).

Lemma split_loop_raised sl (e : exn) :
  fold_left (split_step (vowel_set T)) sl (Raise e) = Raise e.
Proof. induction sl as [|s sl IH]; [done | exact IH]. Qed.

Lemma split_loop_fails sl : ∀ acc,
  Exists (λ s, vowel_count T s = 0%nat) sl →
  fold_left (split_step (vowel_set T)) sl (Ok acc) = Raise AssertionError.
Proof.
  induction sl as [|s sl IH]; intros acc Hex;
    [by apply Exists_nil in Hex|].
  cbn [fold_left]. destruct (vowel_count T s) eqn:Hs.
  - rewrite split_step_no_vowel by done. apply split_loop_raised.
  - apply Exists_cons in Hex as [Hex|Hex]; [lia|].
    destruct (first_vowel_split T s) as (pre & v & post & -> & Hpre & Hv);
      [lia|].
    rewrite split_step_vowelled by done. by apply IH.
Qed.

Lemma split_loop_length sl : ∀ acc,
  Forall (λ s, (0 < vowel_count T s)%nat) sl →
  ∃ out,
    fold_left (split_step (vowel_set T)) sl (Ok acc) = Ok (acc ++ out) ∧
    length out
    = (length sl + length (filter (λ s, (2 ≤ vowel_count T s)%nat) sl))%nat.
Proof.
  induction sl as [|s sl IH]; intros acc Hpos.
  - exists []. by rewrite app_nil_r.
  - apply Forall_cons in Hpos as [Hs Hpos].
    destruct (first_vowel_split T s Hs) as (pre & v & post & -> & Hpre & Hv).
    cbn [fold_left]. rewrite split_step_vowelled by done.
    destruct (IH (acc ++ if bool_decide (0 < vowel_count T post)%nat
                         then [pre ++ [v]; post]
                         else [pre ++ v :: post]) Hpos)
      as (out & Hfold & Hlen).
    exists ((if bool_decide (0 < vowel_count T post)%nat
             then [pre ++ [v]; post]
             else [pre ++ v :: post]) ++ out).
    rewrite Hfold, <- app_assoc. split; [done|].
    rewrite length_app, Hlen, filter_cons.
    assert (vowel_count T (pre ++ v :: post)
            = S (vowel_count T post)) as Hvc.
    { rewrite vowel_count_app, Hpre, vowel_count_cons, decide_True by done.
      done. }
    rewrite Hvc. case_bool_decide.
    + rewrite decide_True by lia. simpl. lia.
    + rewrite decide_False by lia. simpl. lia.
Qed.

Lemma split_loop_fixed sl : ∀ acc,
  Forall (λ s, vowel_count T s = 1%nat) sl →
  fold_left (split_step (vowel_set T)) sl (Ok acc) = Ok (acc ++ sl).
Proof.
  induction sl as [|s sl IH]; intros acc Hone.
  - by rewrite app_nil_r.
  - apply Forall_cons in Hone as [Hs Hone].
    destruct (first_vowel_split T s) as (pre & v & post & -> & Hpre & Hv);
      [lia|].
    rewrite vowel_count_app, Hpre, vowel_count_cons, decide_True in Hs
      by done.
    cbn [fold_left]. rewrite split_step_vowelled by done.
    rewrite bool_decide_eq_false_2 by lia.
    rewrite IH by done. by rewrite <- app_assoc.
Qed.

Lemma no_vowel_iff s :
  vowel_count T s = 0%nat ↔ ∀ c, c ∈ s → c ∉ vowels T.
Proof.
  split.
  - intros Hs c Hin Hv.
    assert (0 < vowel_count T s)%nat by (apply vowelled_iff; eauto). lia.
  - intros Hs. destruct (vowel_count T s) eqn:E; [done|].
    assert (0 < vowel_count T s)%nat as Hpos by lia.
    apply vowelled_iff in Hpos as (c & Hin & Hv). by destruct (Hs c Hin).
Qed.
End SplitProps.

(** Property X8. The split pass fails, with the assertion error, exactly when
    some syllable has no vowel. Otherwise it returns, keeps every phoneme in
    place, and returns one syllable more for each syllable of two vowels or
    more. *)
Theorem validate_syllables2_result (T : SyllableTokenizer)
    (syllable_list : list (list string)) :
  (validate_syllables2 T syllable_list = Raise AssertionError ↔
   Exists (λ s, ∀ c, c ∈ s → c ∉ vowels T) syllable_list) ∧
  (Forall (λ s, ∃ c, c ∈ s ∧ c ∈ vowels T) syllable_list →
   ∃ out,
     validate_syllables2 T syllable_list = Ok out ∧
     concat out = concat syllable_list ∧
     length out
     = (length syllable_list
        + length (filter (λ s, (2 ≤ vowel_count T s)%nat) syllable_list))%nat).
Proof.
  assert (Forall (λ s, ∃ c, c ∈ s ∧ c ∈ vowels T) syllable_list →
          ∃ out,
            validate_syllables2 T syllable_list = Ok out ∧
            concat out = concat syllable_list ∧
            length out
            = (length syllable_list
               + length (filter (λ s, (2 ≤ vowel_count T s)%nat)
                           syllable_list))%nat) as Hok.
  { intros Hall.
    assert (Forall (λ s, (0 < vowel_count T s)%nat) syllable_list) as Hpos.
    { eapply Forall_impl; [exact Hall|]. intros s. apply vowelled_iff. }
    destruct (validate_syllables2_ok T syllable_list Hpos)
      as (out & Hout & Hcat & _).
    destruct (split_loop_length T syllable_list [] Hpos) as (out' & Hout' & Hlen).
    unfold validate_syllables2 in Hout. rewrite Hout in Hout'.
    injection Hout' as ->. exists out'. by split_and!. }
  split; [|exact Hok]. split.
  - intros Hfail.
    destruct (decide (Exists (λ s, vowel_count T s = 0%nat) syllable_list))
      as [Hex|Hnex].
    + eapply Exists_impl; [exact Hex|]. intros s. apply no_vowel_iff.
    + apply not_Exists_Forall in Hnex; [|apply _].
      destruct Hok as (out & Hout & _); [|congruence].
      eapply Forall_impl; [exact Hnex|]. intros s Hs. simpl in Hs.
      apply vowelled_iff. lia.
  - intros Hex. apply (split_loop_fails T syllable_list []).
    eapply Exists_impl; [exact Hex|]. intros s. apply no_vowel_iff.
Qed.

(** Property X9. The split pass cuts a syllable of two vowels or more once,
    right after its first vowel: the first piece has one vowel and ends in
    it, the second piece keeps all the others, so a syllable of three vowels
    leaves the pass with a piece of two. *)
Theorem validate_syllables2_cuts_once (T : SyllableTokenizer)
    (syllable : list string) (Hmulti : (2 ≤ vowel_count T syllable)%nat) :
  ∃ first rest v,
    validate_syllables2 T [syllable] = Ok [first; rest] ∧
    first ++ rest = syllable ∧
    last first = Some v ∧ v ∈ vowels T ∧
    vowel_count T first = 1%nat ∧
    vowel_count T rest = (vowel_count T syllable - 1)%nat.
Proof.
  destruct (first_vowel_split T syllable)
    as (pre & v & post & -> & Hpre & Hv); [lia|].
  rewrite vowel_count_app, Hpre, vowel_count_cons, decide_True in Hmulti
    by done.
  exists (pre ++ [v]), post, v.
  unfold validate_syllables2. cbn [fold_left].
  rewrite split_step_vowelled by done.
  rewrite bool_decide_eq_true_2 by lia.
  split_and!; [done | by rewrite <- app_assoc | apply last_snoc | done | |].
  - rewrite vowel_count_app, Hpre, vowel_count_cons, decide_True by done.
    done.
  - rewrite vowel_count_app, Hpre, vowel_count_cons, decide_True by done.
    simpl. lia.
Qed.

Lemma validate_syllables2_cuts_once_witness :
  ∃ first rest v,
    validate_syllables2 SSP [["AO0"; "AO0"; "AO1"; "R"]%string]
    = Ok [first; rest] ∧
    first ++ rest = ["AO0"; "AO0"; "AO1"; "R"]%string ∧
    last first = Some v ∧ v ∈ vowels SSP ∧
    vowel_count SSP first = 1%nat ∧
    vowel_count SSP rest
    = (vowel_count SSP ["AO0"; "AO0"; "AO1"; "R"]%string - 1)%nat.
Proof.
  apply (validate_syllables2_cuts_once SSP ["AO0"; "AO0"; "AO1"; "R"]%string).
  vm_compute. lia.
Defined.

Lemma repair_fixed_both (T : SyllableTokenizer)
    (syllable_list : list (list string)) :
  Forall (λ s, vowel_count T s = 1%nat) syllable_list →
  validate_syllables2 T (validate_syllables T syllable_list)
  = Ok syllable_list.
Proof.
  intros Hvalid. rewrite validate_syllables_fixed.
  - apply (split_loop_fixed T syllable_list [] Hvalid).
  - eapply Forall_impl; [exact Hvalid|]. simpl. intros s ->. lia.
Qed.

(** Property X10. Both repair passes leave a list of one-vowel syllables as
    it is, so repairing an already valid syllable list is a no-op. *)
Theorem repair_passes_fixed (T : SyllableTokenizer)
    (syllable_list : list (list string))
    (Hvalid : Forall (λ s, vowel_count T s = 1%nat) syllable_list) :
  validate_syllables T syllable_list = syllable_list ∧
  validate_syllables2 T syllable_list = Ok syllable_list ∧
  validate_syllables2 T (validate_syllables T syllable_list)
  = Ok syllable_list.
Proof.
  assert (validate_syllables T syllable_list = syllable_list) as H1.
  { apply validate_syllables_fixed.
    eapply Forall_impl; [exact Hvalid|]. simpl. intros s ->. lia. }
  assert (validate_syllables2 T syllable_list = Ok syllable_list) as H2
    by apply (split_loop_fixed T syllable_list [] Hvalid).
  split_and!; [done | done | by rewrite H1].
Qed.

Lemma repair_passes_fixed_witness :
  validate_syllables SSP [["W"; "AH1"; "N"]; ["D"; "ER0"]]%string
  = [["W"; "AH1"; "N"]; ["D"; "ER0"]]%string ∧
  validate_syllables2 SSP [["W"; "AH1"; "N"]; ["D"; "ER0"]]%string
  = Ok [["W"; "AH1"; "N"]; ["D"; "ER0"]]%string ∧
  validate_syllables2 SSP
    (validate_syllables SSP [["W"; "AH1"; "N"]; ["D"; "ER0"]]%string)
  = Ok [["W"; "AH1"; "N"]; ["D"; "ER0"]]%string.
Proof.
  apply (repair_passes_fixed SSP [["W"; "AH1"; "N"]; ["D"; "ER0"]]%string).
  repeat constructor; vm_compute; reflexivity.
Defined.

(** ** More on [tokenize] *)

Lemma one_vowel_each_sum (T : SyllableTokenizer) (syls : list (list string)) :
  Forall (λ s, vowel_count T s = 1%nat) syls →
  sum_list (map (vowel_count T) syls) = length syls.
Proof.
  induction 1 as [|s syls Hs _ IH]; [done|]. simpl. rewrite Hs, IH. done.
Qed.

(** Property X11. For a well-formed tokenizer the number of syllables that
    [tokenize] returns is the number of vowel phonemes of the input, and one
    when there is none. *)
Theorem tokenize_syllable_count (T : SyllableTokenizer) (wf : wf_tokenizer T)
    (token : list string) :
  ∃ syls,
    tokenize T token = Ok syls ∧
    length syls = (1 `max` vowel_count T token)%nat.
Proof.
  pose proof (tokenize_spec T wf token) as H.
  destruct (decide (vowel_count T token ≤ 1)%nat) as [Hle|Hgt].
  - exists [token]. split; [done|]. simpl. lia.
  - destruct H as (syls & Htok & Hcat & Hone). exists syls. split; [done|].
    rewrite <- (one_vowel_each_sum T syls Hone), <- vowel_count_concat, Hcat.
    rewrite (vowel_count_mapped T wf). lia.
Qed.

Lemma tokenize_syllable_count_witness :
  ∃ syls,
    tokenize SSP ["K"; "AE1"; "N"; "R"; "IY1"; "AH0"]%string = Ok syls ∧
    length syls
    = (1 `max` vowel_count SSP ["K"; "AE1"; "N"; "R"; "IY1"; "AH0"]%string)%nat.
Proof. apply (tokenize_syllable_count SSP SSP_wf). Defined.

(** Property X12. Whatever hierarchy the constructor accepted, [tokenize]
    of the tokenizer it built returns a syllable list for every input: no
    index error and no assertion failure. *)
Theorem tokenize_returns (upper : string → string) (lang : string)
    (sonority_hierarchy : option (list (list string)))
    (T : SyllableTokenizer)
    (HT : __init__ upper lang sonority_hierarchy = Ok T)
    (token : list string) :
  ∃ syls, tokenize T token = Ok syls.
Proof.
  apply tokenize_total. intros c Hc. unfold __init__ in HT.
  destruct (hierarchy_in_effect lang sonority_hierarchy) as [[|level0 rest]|];
    try done.
  injection HT as <-. simpl in *.
  apply (build_phoneme_map_keys upper (level0 :: rest) level0 c);
    [apply list_elem_of_here | done].
Qed.

Lemma tokenize_returns_witness :
  ∃ syls,
    tokenize {| vowels := ["a"; "B"]%string;
                phoneme_map :=
                  build_phoneme_map str_upper [["a"; "B"]; ["b"]]%string |}
      ["B"; "a"; "B"; "zz"]%string
    = Ok syls.
Proof.
  apply (tokenize_returns str_upper "xx" (Some [["a"; "B"]; ["b"]]%string)).
  reflexivity.
Defined.

(** Property X13. For a well-formed tokenizer, every syllable that
    [tokenize] returns is a fixed point, coming back as the single syllable
    of its own tokenization, and none is empty unless the input was. *)
Theorem tokenize_syllables_stable (T : SyllableTokenizer)
    (wf : wf_tokenizer T) (token : list string) (syls : list (list string))
    (Htok : tokenize T token = Ok syls) :
  Forall (λ s, tokenize T s = Ok [s] ∧ (token ≠ [] → s ≠ [])) syls.
Proof.
  pose proof wf as [Hnd _].
  pose proof (tokenize_spec T wf token) as H.
  destruct (decide (vowel_count T token ≤ 1)%nat) as [Hle|Hgt].
  - rewrite H in Htok. injection Htok as <-.
    apply Forall_singleton. split; [|done].
    apply tokenize_short. by rewrite vowel_total_count.
  - destruct H as (syls' & Htok' & _ & Hone).
    rewrite Htok' in Htok. injection Htok as <-.
    eapply Forall_impl; [exact Hone|]. intros s Hs. simpl in Hs. split.
    + apply tokenize_short. rewrite vowel_total_count by done. lia.
    + intros _ ->. by rewrite vowel_count_nil in Hs.
Qed.

Lemma tokenize_syllables_stable_witness :
  Forall (λ s, tokenize SSP s = Ok [s] ∧
               (["R"; "AY1"; "T"; "D"; "AW0"; "N"]%string ≠ [] → s ≠ []))
    [["R"; "AY1"; "T"]; ["D"; "AW0"; "N"]]%string.
Proof.
  apply (tokenize_syllables_stable SSP SSP_wf
           ["R"; "AY1"; "T"; "D"; "AW0"; "N"]%string).
  vm_compute. reflexivity.
Defined.

Lemma count_in_singleton (c : string) (vs : list string) :
  sum_list (map (λ x, list_count x [c]) vs) = list_count c vs.
Proof.
  unfold list_count. induction vs as [|x vs IH]; [done|].
  cbn [map sum_list sum_list_with]. rewrite IH, (filter_cons _ x vs).
  rewrite (filter_cons _ c []), filter_nil.
  destruct (decide (c = x)) as [->|Hne].
  - rewrite decide_True by done. reflexivity.
  - rewrite decide_False by congruence. reflexivity.
Qed.

(** Property X14. When the vowel level lists a vowel twice, [tokenize] turns
    that vowel alone into two syllables: the sum of the counts is two, the
    shortcut is passed over, and the only ranked phoneme is taken both as
    first and as last. *)
Theorem tokenize_doubles_repeated_vowel (T : SyllableTokenizer) (c : string)
    (Htwice : (2 ≤ list_count c (vowels T))%nat)
    (Hrank : is_Some (phoneme_map T !! c)) :
  tokenize T [c] = Ok [[c]; [c]].
Proof.
  assert (c ∈ vowels T) as Hv.
  { unfold list_count in Htwice.
    destruct (filter (λ y, y = c) (vowels T)) as [|y l] eqn:E;
      [simpl in Htwice; lia|].
    assert (y ∈ filter (λ y, y = c) (vowels T)) as Hy
      by (rewrite E; apply list_elem_of_here).
    by apply list_elem_of_filter in Hy as [-> ?]. }
  destruct Hrank as [r Hr].
  unfold tokenize, vowel_total. rewrite count_in_singleton.
  destruct (Nat.leb_spec (list_count c (vowels T)) 1) as [|_]; [lia|].
  unfold assign_values. cbn [fold_left]. rewrite Hr.
  cbn [app head last ngrams3 fold_left].
  rewrite validate_syllables_fixed.
  - unfold validate_syllables2. cbn [fold_left].
    pose proof (split_step_vowelled T [] [] c [c] eq_refl Hv) as Hcut.
    rewrite bool_decide_eq_true_2 in Hcut
      by (rewrite vowel_count_cons, decide_True by done; lia).
    exact Hcut.
  - apply Forall_singleton.
    rewrite !vowel_count_cons, decide_True by done. lia.
Qed.

Lemma tokenize_doubles_repeated_vowel_witness :
  tokenize {| vowels := ["a"; "a"]%string;
              phoneme_map := build_phoneme_map str_upper [["a"; "a"]]%string |}
    ["a"]%string
  = Ok [["a"]; ["a"]]%string.
Proof.
  apply (tokenize_doubles_repeated_vowel
           {| vowels := ["a"; "a"]%string;
              phoneme_map := build_phoneme_map str_upper [["a"; "a"]]%string |}
           "a"%string).
  - vm_compute. lia.
  - apply (bool_decide_unpack _). vm_compute. exact I.
Defined.

(** ** More on [syllable] *)

Section AlignerProps.
Variable T : SyllableTokenizer.
Variable phones : list string.

Lemma syllable_loop_total (phone_nums : list Z) :
  (∀ token, ∃ syls, tokenize T token = Ok syls) →
  ∀ start syllables counts,
    length syllables = length counts →
    ∃ start' syllables' counts',
      fold_left (syllable_step T phones) phone_nums
        (Ok (start, (syllables, counts)))
      = Ok (start', (syllables', counts')) ∧
      length syllables' = length counts'.
Proof.
  intros Htotal.
  induction phone_nums as [|n phone_nums IH]; intros start syllables counts Hlen.
  - by exists start, syllables, counts.
  - cbn [fold_left syllable_step rbind].
    destruct (Z.leb_spec n 2) as [Hshort|Hlong].
    + apply IH. rewrite !length_app. simpl. lia.
    + destruct (Htotal (py_slice phones start (start + n))) as [syls ->].
      cbn [rbind]. rewrite emit_loop. apply IH.
      rewrite !length_app, !length_map. lia.
Qed.

Lemma syllable_loop_short (phone_nums : list Z) :
  Forall (λ n, n ≤ 2) phone_nums →
  ∀ start syllables counts,
    ∃ out,
      fold_left (syllable_step T phones) phone_nums
        (Ok (start, (syllables, counts)))
      = Ok (start + Zsum phone_nums, (syllables ++ out, counts ++ phone_nums)) ∧
      length out = length phone_nums.
Proof.
  induction 1 as [|n phone_nums Hn _ IH]; intros start syllables counts.
  - exists []. simpl. by rewrite !app_nil_r, Z.add_0_r.
  - cbn [fold_left syllable_step rbind].
    destruct (Z.leb_spec n 2) as [_|]; [|lia].
    destruct (IH (start + n)
                (syllables ++ [String.concat " " (py_slice phones start (start + n))])
                (counts ++ [n])) as (out & Hfold & Hlen).
    exists (String.concat " " (py_slice phones start (start + n)) :: out).
    rewrite Hfold, <- !app_assoc. simpl.
    change (Zsum (n :: phone_nums)) with (n + Zsum phone_nums).
    rewrite Z.add_assoc. split; [done | by rewrite Hlen].
Qed.
End AlignerProps.

(** Property X15. For every tokenizer that the constructor builds,
    [syllable] returns on every phone list and every list of counts, also
    counts that do not fit the phones, and its two result lists have the
    same length: one count per syllable. *)
Theorem syllable_returns (upper : string → string) (lang : string)
    (sonority_hierarchy : option (list (list string)))
    (T : SyllableTokenizer)
    (HT : __init__ upper lang sonority_hierarchy = Ok T)
    (phones : list string) (phone_nums : list Z) :
  ∃ syllables counts,
    syllable T phones phone_nums = Ok (syllables, counts) ∧
    length syllables = length counts.
Proof.
  assert (∀ token, ∃ syls, tokenize T token = Ok syls) as Htotal.
  { intros token. apply tokenize_total. intros c Hc. unfold __init__ in HT.
    destruct (hierarchy_in_effect lang sonority_hierarchy)
      as [[|level0 rest]|]; try done.
    injection HT as <-. simpl in *.
    apply (build_phoneme_map_keys upper (level0 :: rest) level0 c);
      [apply list_elem_of_here | done]. }
  destruct (syllable_loop_total T phones phone_nums Htotal 0 [] [] eq_refl)
    as (start' & syllables & counts & Hfold & Hlen).
  exists syllables, counts. unfold syllable. by rewrite Hfold.
Qed.

Lemma syllable_returns_witness :
  ∃ syllables counts,
    syllable SSP ["DH"; "AH0"; "K"; "AE1"; "T"]%string [2; 7; -1; 3]
    = Ok (syllables, counts) ∧
    length syllables = length counts.
Proof.
  apply (syllable_returns str_upper "en" None SSP). reflexivity.
Defined.

(** Property X16. When no word has more than two phones, [syllable] never
    consults the tokenizer: it returns one syllable per word and the counts
    it was given, whatever the tokenizer and whatever the phones. *)
Theorem syllable_short_words (T : SyllableTokenizer) (phones : list string)
    (phone_nums : list Z) (Hshort : Forall (λ n, n ≤ 2) phone_nums) :
  ∃ syllables,
    syllable T phones phone_nums = Ok (syllables, phone_nums) ∧
    length syllables = length phone_nums.
Proof.
  destruct (syllable_loop_short T phones phone_nums Hshort 0 [] [])
    as (out & Hfold & Hlen).
  exists out. unfold syllable. by rewrite Hfold.
Qed.

Lemma syllable_short_words_witness :
  ∃ syllables,
    syllable SSP ["DH"; "AH0"; "K"; "AE1"; "T"]%string [2; 2; 1]
    = Ok (syllables, [2; 2; 1]) ∧
    length syllables = length [2; 2; 1].
Proof.
  apply (syllable_short_words SSP ["DH"; "AH0"; "K"; "AE1"; "T"]%string
           [2; 2; 1]).
  repeat constructor; lia.
Defined.

(** ** More on the script segmenter *)

(** Consecutive segments of different classes: the first characters of two
    neighbours are never both in the class or both out of it. *)
Fixpoint alternates (in_cn : N → bool) (segs : list (list N)) : Prop :=
  match segs with
  | s1 :: ((s2 :: _) as rest) =>
      (∀ c1 c2, head s1 = Some c1 → head s2 = Some c2 → in_cn c1 ≠ in_cn c2) ∧
      alternates in_cn rest
  | _ => True
  end.

Lemma lstrip_head (s : list N) :
  match lstrip s with c :: _ => is_space c = false | [] => True end.
Proof.
  induction s as [|c s IH]; [done|]. simpl.
  destruct (is_space c) eqn:E; [exact IH | exact E].
Qed.

Lemma lstrip_suffix (s : list N) :
  ∃ ws, s = ws ++ lstrip s ∧ Forall (λ c, is_space c = true) ws.
Proof.
  induction s as [|c s (ws & IH & Hws)]; [by exists []|]. simpl.
  destruct (is_space c) eqn:E.
  - exists (c :: ws). split; [by rewrite IH at 1 | by constructor].
  - by exists [].
Qed.

Lemma lstrip_fixed (s : list N) :
  (∀ c, head s = Some c → is_space c = false) → lstrip s = s.
Proof.
  destruct s as [|c s]; [done|]. intros H. simpl. by rewrite (H c eq_refl).
Qed.

Lemma head_rev (s : list N) : head (rev s) = last s.
Proof.
  induction s as [|c s _] using rev_ind; [done|].
  by rewrite rev_app_distr, last_snoc.
Qed.

(** What [strip] leaves is empty or has a visible character at both ends. *)
Lemma strip_ends (s : list N) :
  strip s = [] ∨
  ∃ c d, head (strip s) = Some c ∧ last (strip s) = Some d ∧
         is_space c = false ∧ is_space d = false.
Proof.
  unfold strip, rstrip.
  pose proof (lstrip_head s) as Ht.
  pose proof (lstrip_head (rev (lstrip s))) as Hu.
  destruct (lstrip_suffix (rev (lstrip s))) as (ws & Hrev & _).
  destruct (lstrip (rev (lstrip s))) as [|d u]; [by left|]. right.
  apply (f_equal (@rev N)) in Hrev.
  rewrite rev_involutive, rev_app_distr in Hrev.
  destruct (rev (d :: u)) as [|c r] eqn:E.
  { apply (f_equal (@length N)) in E. rewrite length_rev in E. done. }
  exists c, d. split_and!; [done | | | done].
  - rewrite <- E. simpl. apply last_snoc.
  - rewrite Hrev in Ht. exact Ht.
Qed.

Lemma strip_fixed (s : list N) :
  (∀ c, head s = Some c → is_space c = false) →
  (∀ d, last s = Some d → is_space d = false) →
  strip s = s.
Proof.
  intros Hhead Hlast. unfold strip, rstrip.
  rewrite (lstrip_fixed s Hhead), lstrip_fixed, rev_involutive; [done|].
  intros d. rewrite head_rev. apply Hlast.
Qed.

Lemma strip_stable (s : list N) : strip (strip s) = strip s.
Proof.
  destruct (strip_ends s) as [->|(c & d & Hc & Hd & Hcs & Hds)]; [done|].
  apply strip_fixed; intros x Hx; congruence.
Qed.

Lemma lstrip_Forall (P : N → Prop) (s : list N) :
  Forall P s → Forall P (lstrip s).
Proof.
  induction 1 as [|c s Hc Hs IH]; [done|]. simpl.
  destruct (is_space c); [exact IH | by constructor].
Qed.

Lemma strip_Forall (P : N → Prop) (s : list N) :
  Forall P s → Forall P (strip s).
Proof.
  intros H. unfold strip, rstrip.
  by apply Forall_rev, lstrip_Forall, Forall_rev, lstrip_Forall.
Qed.

Section SegmenterMore.
Variable in_cn : N → bool.
Implicit Types (c : N) (text seg run tail : list N) (segs : list (list N)).

Lemma span_class (class : N → bool) text run tail :
  span class text = (run, tail) →
  Forall (λ c, class c = true) run ∧
  ∀ c, head tail = Some c → class c = false.
Proof.
  revert run tail. induction text as [|c text IH]; intros run tail; simpl.
  - intros [= <- <-]. by split.
  - destruct (class c) eqn:E.
    + destruct (span class text) as [run' tail'] eqn:Es.
      intros [= <- <-]. destruct (IH run' tail' eq_refl) as [Hrun Htail].
      split; [by constructor | done].
    + intros [= <- <-]. split; [constructor|]. by intros c' [= <-].
Qed.

Lemma span_head (class : N → bool) c text run tail :
  span class (c :: text) = (run, tail) → run ≠ [] → head run = Some c.
Proof.
  simpl. destruct (class c); [|by intros [= <- <-]].
  destruct (span class text). by intros [= <- <-].
Qed.

(** A match is a run of one class that starts where the text starts and
    stops before a character of the other class. *)
Lemma match_here_run text seg tail :
  match_here in_cn text = Some (seg, tail) →
  ∃ b, Forall (λ c, in_cn c = b) seg ∧
       head seg = head text ∧
       ∀ c, head tail = Some c → in_cn c = negb b.
Proof.
  unfold match_here.
  destruct (span in_cn text) as [[|c run] t1] eqn:E1.
  - destruct (span (λ c, negb (in_cn c)) text) as [[|c run] t2] eqn:E2;
      [done|].
    intros [= <- <-]. exists false.
    destruct (span_class _ _ _ _ E2) as [Hrun Htail]. split_and!.
    + eapply Forall_impl; [exact Hrun|]. simpl. intros x Hx.
      by destruct (in_cn x).
    + destruct text as [|x text]; [done|].
      by apply (span_head _ _ _ _ _ E2).
    + intros x Hx. specialize (Htail x Hx). simpl in Htail.
      by destruct (in_cn x).
  - intros [= <- <-]. exists true.
    destruct (span_class _ _ _ _ E1) as [Hrun Htail]. split_and!.
    + exact Hrun.
    + destruct text as [|x text]; [done|].
      by apply (span_head _ _ _ _ _ E1).
    + exact Htail.
Qed.

Lemma findall_from_uniform (turns : nat) : ∀ text,
  Forall (λ seg, ∃ b, Forall (λ c, in_cn c = b) seg)
    (findall_from in_cn turns text).
Proof.
  induction turns as [|turns IH]; intros [|c text]; simpl; try constructor.
  destruct (match_here in_cn (c :: text)) as [[seg tail]|] eqn:Hm; [|apply IH].
  constructor; [|apply IH].
  destruct (match_here_run _ _ _ Hm) as (b & Hb & _). eauto.
Qed.

Lemma findall_from_head (turns : nat) text seg segs :
  findall_from in_cn turns text = seg :: segs → head seg = head text.
Proof.
  destruct turns as [|turns]; [done|]. destruct text as [|c text]; [done|].
  simpl. destruct (match_here_some in_cn c text) as [[seg' tail] Hm].
  rewrite Hm. intros [= <- _].
  by destruct (match_here_run _ _ _ Hm) as (_ & _ & ? & _).
Qed.

Lemma findall_from_alternates (turns : nat) : ∀ text,
  alternates in_cn (findall_from in_cn turns text).
Proof.
  induction turns as [|turns IH]; intros [|c text]; try done.
  cbn [findall_from].
  destruct (match_here in_cn (c :: text)) as [[seg tail]|] eqn:Hm; [|apply IH].
  pose proof (IH tail) as Halt.
  destruct (findall_from in_cn turns tail) as [|seg2 segs] eqn:E; [done|].
  cbn [alternates]. split; [|exact Halt].
  intros c1 c2 H1 H2.
  destruct (match_here_run _ _ _ Hm) as (b & Hb & Hhead & Htail).
  rewrite (findall_from_head _ _ _ _ E) in H2.
  rewrite (Htail c2 H2).
  assert (in_cn c1 = b) as ->.
  { destruct seg as [|x seg]; [done|]. injection H1 as ->.
    by apply Forall_cons in Hb as [? _]. }
  by destruct b.
Qed.
End SegmenterMore.

(** Property X17. The pattern of [split_zh_en] tiles the text: the matches
    of [re.findall] put together are the text, each match is a non-empty run
    of characters of one class, and neighbouring matches are of different
    classes, so the runs are maximal. *)
Theorem re_findall_runs (in_cn : N → bool) (text : list N) :
  concat (re_findall in_cn text) = text ∧
  Forall (λ seg, seg ≠ [] ∧ ∃ b, Forall (λ c, in_cn c = b) seg)
    (re_findall in_cn text) ∧
  alternates in_cn (re_findall in_cn text).
Proof.
  split_and!.
  - apply re_findall_concat.
  - apply Forall_and. split.
    + apply findall_from_nonempty.
    + apply findall_from_uniform.
  - apply findall_from_alternates.
Qed.

(** Property X18. Every segment that [split_zh_en] returns lies wholly in
    the class or wholly outside it, so its first character, which is all
    the caller tests, decides for the whole segment. *)
Theorem split_zh_en_uniform (in_cn : N → bool) (text : list N) :
  Forall (λ seg, ∃ b, Forall (λ c, in_cn c = b) seg)
    (split_zh_en in_cn text).
Proof.
  unfold split_zh_en. apply Forall_forall. intros seg Hseg.
  apply list_elem_of_In, in_map_iff in Hseg as (seg' & <- & Hin).
  apply list_elem_of_In, list_elem_of_filter in Hin as [_ Hin].
  pose proof (findall_from_uniform in_cn (length text) text) as Hall.
  rewrite Forall_forall in Hall. destruct (Hall seg' Hin) as [b Hb].
  exists b. by apply strip_Forall.
Qed.

(** Property X19. Every segment that [split_zh_en] returns starts and ends
    with a character that is not white space, so stripping it again, as the
    caller does, changes nothing. *)
Theorem split_zh_en_trimmed (in_cn : N → bool) (text : list N) :
  Forall (λ seg, strip seg = seg ∧
                 ∃ c d, head seg = Some c ∧ last seg = Some d ∧
                        is_space c = false ∧ is_space d = false)
    (split_zh_en in_cn text).
Proof.
  unfold split_zh_en. apply Forall_forall. intros seg Hseg.
  apply list_elem_of_In, in_map_iff in Hseg as (seg' & <- & Hin).
  apply list_elem_of_In, list_elem_of_filter in Hin as [Hkeep _].
  split; [apply strip_stable|].
  by destruct (strip_ends seg') as [Hnil|Hends].
Qed.

(** Property X20. [split_zh_en] returns no segment exactly when the text has
    no character other than white space; the empty text is one case. *)
Theorem split_zh_en_nil (in_cn : N → bool) (text : list N) :
  split_zh_en in_cn text = [] ↔ visible text = [].
Proof.
  pose proof (split_zh_en_visible in_cn text) as Hvis. split.
  - intros Hnil. by rewrite Hnil in Hvis.
  - intros Hnone. rewrite Hnone in Hvis.
    destruct (split_zh_en in_cn text) as [|seg segs] eqn:E; [done|].
    assert (seg ∈ split_zh_en in_cn text) as Hin
      by (rewrite E; apply list_elem_of_here).
    unfold split_zh_en in Hin.
    apply list_elem_of_In, in_map_iff in Hin as (seg' & <- & Hin).
    apply list_elem_of_In, list_elem_of_filter in Hin as [Hkeep _].
    destruct (strip_ends seg') as [Hnil|(c & d & Hc & _ & Hcs & _)]; [done|].
    destruct (strip seg') as [|x rest]; [done|]. injection Hc as ->.
    cbn [concat] in Hvis. unfold visible in Hvis.
    rewrite filter_app, (filter_cons_True _ c rest) in Hvis by done. done.
Qed.

(** ** [tokenize_sents] *)

Lemma tokenize_sents_loop (T : SyllableTokenizer)
    (strings : list (list string)) :
  (∀ token, ∃ syls, tokenize T token = Ok syls) →
  ∀ tokenized,
    ∃ out,
      fold_left
        (λ acc s, tokenized ←! acc; syls ←! tokenize T s;
                  Ok (tokenized ++ [syls]))
        strings (Ok tokenized)
      = Ok (tokenized ++ out) ∧
      Forall2 (λ s syls, tokenize T s = Ok syls) strings out.
Proof.
  intros Htotal. induction strings as [|s strings IH]; intros tokenized.
  - exists []. rewrite app_nil_r. by split; [|constructor].
  - destruct (Htotal s) as [syls Hs]. cbn [fold_left rbind]. rewrite Hs.
    cbn [rbind]. destruct (IH (tokenized ++ [syls])) as (out & Hfold & Hall).
    exists (syls :: out). rewrite Hfold, <- app_assoc.
    split; [done | by constructor].
Qed.

(** Property X21. For every tokenizer that the constructor builds,
    [tokenize_sents] returns one syllable list per input sequence, in order,
    each the result of [tokenize] on that sequence. *)
Theorem tokenize_sents_each (upper : string → string) (lang : string)
    (sonority_hierarchy : option (list (list string)))
    (T : SyllableTokenizer)
    (HT : __init__ upper lang sonority_hierarchy = Ok T)
    (strings : list (list string)) :
  ∃ out,
    tokenize_sents T strings = Ok out ∧
    Forall2 (λ s syls, tokenize T s = Ok syls) strings out.
Proof.
  assert (∀ token, ∃ syls, tokenize T token = Ok syls) as Htotal.
  { intros token. apply tokenize_total. intros c Hc. unfold __init__ in HT.
    destruct (hierarchy_in_effect lang sonority_hierarchy)
      as [[|level0 rest]|]; try done.
    injection HT as <-. simpl in *.
    apply (build_phoneme_map_keys upper (level0 :: rest) level0 c);
      [apply list_elem_of_here | done]. }
  destruct (tokenize_sents_loop T strings Htotal []) as (out & Hfold & Hall).
  exists out. split; [exact Hfold | exact Hall].
Qed.

Lemma tokenize_sents_each_witness :
  ∃ out,
    tokenize_sents SSP [["N"]; ["R"; "AY1"; "T"; "D"; "AW0"; "N"]]%string
    = Ok out ∧
    Forall2 (λ s syls, tokenize SSP s = Ok syls)
      [["N"]; ["R"; "AY1"; "T"; "D"; "AW0"; "N"]]%string out.
Proof.
  apply (tokenize_sents_each str_upper "en" None SSP). reflexivity.
Defined.

(** ** Ranks *)

Section RankProps.
Variable upper : string → string.
Implicit Types (c : string) (m : gmap string Z) (level : list string).
Implicit Types (h pre post : list (list string)).

Lemma register_range (n lvl : Z) m c :
  1 ≤ lvl ≤ n →
  map_Forall (λ _ r, 1 ≤ r ≤ n) m →
  map_Forall (λ _ r, 1 ≤ r ≤ n) (register upper lvl m c).
Proof.
  intros Hl Hm. unfold register.
  apply map_Forall_insert_2; [exact Hl|].
  apply map_Forall_insert_2; [exact Hl | exact Hm].
Qed.

Lemma register_all_range (n lvl : Z) level : ∀ m,
  1 ≤ lvl ≤ n →
  map_Forall (λ _ r, 1 ≤ r ≤ n) m →
  map_Forall (λ _ r, 1 ≤ r ≤ n) (fold_left (register upper lvl) level m).
Proof.
  induction level as [|c level IH]; intros m Hl Hm; [done|].
  simpl. by apply IH, register_range.
Qed.

Lemma register_levels_range (len : nat) (items : list (nat * list string)) :
  ∀ m,
    Forall (λ il, (il.1 < len)%nat) items →
    map_Forall (λ _ r, 1 ≤ r ≤ Z.of_nat len) m →
    map_Forall (λ _ r, 1 ≤ r ≤ Z.of_nat len)
      (fold_left (register_level upper (Z.of_nat len)) items m).
Proof.
  induction items as [|[i level] items IH]; intros m Hidx Hm; [done|].
  apply Forall_cons in Hidx as [Hi Hidx]. simpl in Hi.
  simpl. apply IH; [done|]. unfold register_level. simpl.
  apply register_all_range; [lia | done].
Qed.

Lemma enumerate_indices {A : Type} (l : list A) :
  Forall (λ il, (il.1 < length l)%nat) (enumerate l).
Proof.
  apply Forall_forall. intros [i x] Hin. unfold enumerate in Hin.
  apply elem_of_lookup_imap in Hin as (j & y & [= -> ->] & Hj).
  simpl. by eapply lookup_lt_Some.
Qed.

Lemma register_levels_value (n : Z) (items : list (nat * list string))
    (i : nat) level c : ∀ m,
  c ∈ level →
  Forall (λ il, Forall (λ x, c ≠ x ∧ c ≠ upper x) il.2) items →
  fold_left (register_level upper n) ((i, level) :: items) m !! c
  = Some (n - Z.of_nat i).
Proof.
  intros m Hc Hlater. cbn [fold_left].
  rewrite register_levels_other by done.
  unfold register_level. cbn [fst snd]. by apply register_all_value.
Qed.
End RankProps.

(** Property X22. Every rank in the phoneme map lies between 1 and the
    number of levels of the hierarchy. *)
Theorem ranks_in_range (upper : string → string) (h : list (list string))
    (c : string) (r : Z)
    (Hc : build_phoneme_map upper h !! c = Some r) :
  1 ≤ r ≤ Z.of_nat (length h).
Proof.
  apply (register_levels_range upper (length h) (enumerate h) ∅
           (enumerate_indices h) (map_Forall_empty _) c r Hc).
Qed.

Lemma ranks_in_range_witness :
  1 ≤ 2 ≤ Z.of_nat (length [["a"; "e"]; ["l"; "r"]; ["t"]]%string).
Proof.
  apply (ranks_in_range str_upper [["a"; "e"]; ["l"; "r"]; ["t"]]%string
           "R"%string 2).
  vm_compute. reflexivity.
Defined.

(** Property X23. A symbol of level [i] that no later level spells again, as
    it is or upper-cased, has the rank [len - i]: the number of levels minus
    the index of its level. A later spelling would overwrite it. *)
Theorem rank_of_level (upper : string → string)
    (pre post : list (list string)) (level : list string) (c : string)
    (Hc : c ∈ level)
    (Hlater : Forall (λ lv, Forall (λ x, c ≠ x ∧ c ≠ upper x) lv) post) :
  build_phoneme_map upper (pre ++ level :: post) !! c
  = Some (Z.of_nat (length (pre ++ level :: post)) - Z.of_nat (length pre)).
Proof.
  unfold build_phoneme_map, enumerate.
  rewrite imap_app, fold_left_app, imap_cons. cbn [compose].
  rewrite Nat.add_0_r.
  apply register_levels_value; [done|].
  apply Forall_forall. intros [j lv] Hin.
  apply elem_of_lookup_imap in Hin as (k & lv' & [= -> ->] & Hk).
  rewrite Forall_forall in Hlater. apply Hlater.
  by eapply list_elem_of_lookup_2.
Qed.

Lemma rank_of_level_witness :
  build_phoneme_map str_upper
    ([["a"; "e"]]%string ++ ["l"; "r"]%string :: [["t"]]%string)
    !! "r"%string
  = Some (Z.of_nat
            (length ([["a"; "e"]]%string ++ ["l"; "r"]%string :: [["t"]]%string))
          - Z.of_nat (length [["a"; "e"]]%string)).
Proof.
  apply (rank_of_level str_upper [["a"; "e"]]%string [["t"]]%string
           ["l"; "r"]%string "r"%string).
  - apply (bool_decide_unpack _). vm_compute. exact I.
  - repeat constructor; discriminate.
Defined.

(** ** The two break rules on small words *)

Lemma vowel_count_le_total (T : SyllableTokenizer) (token : list string) :
  (vowel_count T token ≤ vowel_total T token)%nat.
Proof.
  unfold vowel_total. induction token as [|c token IH].
  - rewrite vowel_count_nil. lia.
  - rewrite vowel_count_cons, sum_count_cons.
    apply Nat.add_le_mono; [|exact IH].
    destruct (decide (c ∈ vowels T)) as [Hc|Hc]; [|lia].
    clear -Hc. induction (vowels T) as [|x vs IHv].
    + by apply not_elem_of_nil in Hc.
    + simpl. apply elem_of_cons in Hc as [->|Hc].
      * rewrite decide_True by done. lia.
      * specialize (IHv Hc). lia.
Qed.

(** Property X24. The valley rule and the plateau rule on the smallest
    words: one consonant between two vowels opens the second syllable, and of
    two consonants of the same rank between two vowels the first closes the
    first syllable and the second opens the next. *)
Theorem break_rules (T : SyllableTokenizer) (v1 v2 c1 c2 : string)
    (r1 r2 rc : Z)
    (Hv1 : v1 ∈ vowels T) (Hv2 : v2 ∈ vowels T)
    (Hc1 : c1 ∉ vowels T) (Hc2 : c2 ∉ vowels T)
    (Hr1 : phoneme_map T !! v1 = Some r1)
    (Hr2 : phoneme_map T !! v2 = Some r2)
    (Hrc1 : phoneme_map T !! c1 = Some rc)
    (Hrc2 : phoneme_map T !! c2 = Some rc)
    (Hlow1 : rc < r1) (Hlow2 : rc < r2) :
  tokenize T [v1; c1; v2] = Ok [[v1]; [c1; v2]] ∧
  tokenize T [v1; c1; c2; v2] = Ok [[v1; c1]; [c2; v2]].
Proof.
  assert (∀ token, vowel_count T token = 2%nat →
                   (vowel_total T token <=? 1)%nat = false) as Hlong.
  { intros token Hl. apply Nat.leb_gt.
    pose proof (vowel_count_le_total T token). lia. }
  assert (vowel_count T [v1] = 1%nat) as E1
    by (rewrite vowel_count_cons, decide_True by done; done).
  assert (vowel_count T [c1; v2] = 1%nat) as E2.
  { rewrite !vowel_count_cons, decide_False, decide_True by done. done. }
  assert (vowel_count T [v1; c1] = 1%nat) as E3.
  { rewrite !vowel_count_cons, decide_True, decide_False by done. done. }
  assert (vowel_count T [c2; v2] = 1%nat) as E4.
  { rewrite !vowel_count_cons, decide_False, decide_True by done. done. }
  split.
  - unfold tokenize. rewrite (Hlong [v1; c1; v2]).
    2:{ change [v1; c1; v2] with ([v1] ++ [c1; v2]).
        rewrite vowel_count_app, E1, E2. done. }
    unfold assign_values. cbn [fold_left app]. rewrite Hr1, Hrc1, Hr2.
    cbn [app head last ngrams3 fold_left scan_step].
    destruct (Z.geb_spec r1 rc); [|lia].
    destruct (Z.eqb_spec rc r2); [lia|].
    destruct (Z.gtb_spec r1 rc); [|lia].
    destruct (Z.ltb_spec rc r2); [|lia].
    cbn [andb app].
    apply (repair_fixed_both T [[v1]; [c1; v2]]). by repeat constructor.
  - unfold tokenize. rewrite (Hlong [v1; c1; c2; v2]).
    2:{ change [v1; c1; c2; v2] with ([v1; c1] ++ [c2; v2]).
        rewrite vowel_count_app, E3, E4. done. }
    unfold assign_values. cbn [fold_left app]. rewrite Hr1, Hrc1, Hrc2, Hr2.
    cbn [app head last ngrams3 fold_left scan_step].
    destruct (Z.geb_spec r1 rc); [|lia].
    destruct (Z.eqb_spec rc rc); [|lia].
    cbn [andb app fold_left scan_step].
    destruct (Z.geb_spec rc rc); [|lia].
    destruct (Z.eqb_spec rc r2); [lia|].
    destruct (Z.gtb_spec rc rc); [lia|].
    cbn [andb app].
    apply (repair_fixed_both T [[v1; c1]; [c2; v2]]). by repeat constructor.
Qed.

Lemma break_rules_witness :
  tokenize SSP ["AH0"; "T"; "ER0"]%string
  = Ok [["AH0"]; ["T"; "ER0"]]%string ∧
  tokenize SSP ["AH0"; "T"; "D"; "ER0"]%string
  = Ok [["AH0"; "T"]; ["D"; "ER0"]]%string.
Proof.
  apply (break_rules SSP "AH0" "ER0" "T" "D" 5 5 1)%string;
    first [ apply (bool_decide_unpack _); vm_compute; exact I
          | vm_compute; reflexivity ].
Defined.

(** ** Where the merge pass puts a syllable without a vowel *)

(** The merge pass as a recursion on the syllables: [absorb] has an open
    syllable [cur] that takes in the vowel-less syllables that follow it,
    [merge_from] still collects the vowel-less syllables [front] that come
    before the first vowelled one. *)
Fixpoint absorb (T : SyllableTokenizer) (cur : list string)
    (sl : list (list string)) : list (list string) :=
  match sl with
  | [] => [cur]
  | s :: rest =>
      if has_vowel (vowel_set T) s then cur :: absorb T s rest
      else absorb T (cur ++ s) rest
  end.

Fixpoint merge_from (T : SyllableTokenizer) (front : list string)
    (sl : list (list string)) : list (list string) :=
  match sl with
  | [] => []
  | s :: rest =>
      if has_vowel (vowel_set T) s then absorb T (front ++ s) rest
      else merge_from T (front ++ s) rest
  end.

Section MergeEquations.
Variable T : SyllableTokenizer.
Implicit Types (s cur front p : list string) (sl valid : list (list string)).

Lemma merge_loop_absorb sl : ∀ valid cur front,
  fold_left (merge_step (vowel_set T)) sl (valid ++ [cur], front)
  = (valid ++ absorb T cur sl, front).
Proof.
  induction sl as [|s sl IH]; intros valid cur front; [done|].
  cbn [fold_left merge_step absorb].
  rewrite length_app, Nat.add_comm. cbn [length Nat.add Nat.eqb].
  destruct (has_vowel (vowel_set T) s); cbn [negb].
  - rewrite IH, <- app_assoc. done.
  - rewrite extend_last_snoc. apply IH.
Qed.

Lemma merge_loop_from sl : ∀ front,
  (fold_left (merge_step (vowel_set T)) sl ([], front)).1
  = merge_from T front sl.
Proof.
  induction sl as [|s sl IH]; intros front; [done|].
  cbn [fold_left merge_step merge_from length Nat.eqb].
  destruct (has_vowel (vowel_set T) s); cbn [negb].
  - by rewrite (merge_loop_absorb sl [] (front ++ s) front).
  - apply IH.
Qed.

Lemma absorb_prefix sl : ∀ p cur,
  absorb T (p ++ cur) sl
  = match absorb T cur sl with
    | x :: out => (p ++ x) :: out
    | [] => []
    end.
Proof.
  induction sl as [|s sl IH]; intros p cur; [done|]. cbn [absorb].
  destruct (has_vowel (vowel_set T) s); [done|].
  rewrite <- app_assoc. apply IH.
Qed.

Lemma merge_from_prefix sl : ∀ p front,
  merge_from T (p ++ front) sl
  = match merge_from T front sl with
    | x :: out => (p ++ x) :: out
    | [] => []
    end.
Proof.
  induction sl as [|s sl IH]; intros p front; [done|]. cbn [merge_from].
  destruct (has_vowel (vowel_set T) s).
  - rewrite <- app_assoc. apply absorb_prefix.
  - rewrite <- app_assoc. apply IH.
Qed.

Lemma validate_syllables_merge_from sl :
  validate_syllables T sl = merge_from T [] sl.
Proof. apply merge_loop_from. Qed.
End MergeEquations.

(** The equations of the fold on values. *)
Lemma merge_equations (T : SyllableTokenizer)
    (s t : list string) (sl : list (list string)) :
  (vowel_count T s = 0%nat →
   validate_syllables T (s :: sl)
   = match validate_syllables T sl with
     | x :: out => (s ++ x) :: out
     | [] => []
     end) ∧
  ((0 < vowel_count T s)%nat → vowel_count T t = 0%nat →
   validate_syllables T (s :: t :: sl)
   = validate_syllables T ((s ++ t) :: sl)) ∧
  ((0 < vowel_count T s)%nat → (0 < vowel_count T t)%nat →
   validate_syllables T (s :: t :: sl)
   = s :: validate_syllables T (t :: sl)).
Proof.
  rewrite !validate_syllables_merge_from. split_and!.
  - intros Hs. apply has_vowel_false in Hs. cbn [merge_from]. rewrite Hs.
    cbn [app]. rewrite <- (app_nil_r s) at 1. apply merge_from_prefix.
  - intros Hs Ht. pose proof Hs as Hst.
    apply has_vowel_count in Hs. apply has_vowel_false in Ht.
    assert (has_vowel (vowel_set T) (s ++ t) = true) as Hboth.
    { apply has_vowel_count. rewrite vowel_count_app. lia. }
    cbn [merge_from absorb app]. by rewrite Hs, Ht, Hboth.
  - intros Hs Ht. apply has_vowel_count in Hs, Ht.
    cbn [merge_from absorb app]. by rewrite Hs, Ht.
Qed.

(** Property X25. Where a syllable without a vowel goes, on a list of
    distinct list objects: at the head of the list it is put in front of the
    first syllable of what the pass makes of the rest (and is lost if that is
    nothing); after a syllable with a vowel it is appended to that syllable,
    so the result is that of the list in which the two are one object. Two
    neighbours with a vowel each stay apart. Every call is taken on the same
    store. *)
Theorem validate_syllables_merges (T : SyllableTokenizer)
    (σ : gmap nat (list string)) (rs rt : nat) (rest : list nat)
    (Hdistinct : NoDup (rs :: rt :: rest)) :
  (vowel_count T (read σ rs) = 0%nat →
   validate_syllables_objs T σ (rs :: rt :: rest)
   = match validate_syllables_objs T σ (rt :: rest) with
     | x :: out => (read σ rs ++ x) :: out
     | [] => []
     end) ∧
  ((0 < vowel_count T (read σ rs))%nat → vowel_count T (read σ rt) = 0%nat →
   validate_syllables_objs T σ (rs :: rt :: rest)
   = validate_syllables_objs T (<[rs := read σ rs ++ read σ rt]> σ)
       (rs :: rest)) ∧
  ((0 < vowel_count T (read σ rs))%nat → (0 < vowel_count T (read σ rt))%nat →
   validate_syllables_objs T σ (rs :: rt :: rest)
   = read σ rs :: validate_syllables_objs T σ (rt :: rest)).
Proof.
  pose proof Hdistinct as [Hrs Htail]%NoDup_cons.
  pose proof Htail as [Hrt Hrest]%NoDup_cons.
  assert (NoDup (rs :: rest)) as Hskip.
  { apply NoDup_cons. split; [|done]. intros Hin. apply Hrs.
    by apply list_elem_of_further. }
  rewrite !validate_syllables_objs_values by done. cbn [map].
  assert (read (<[rs := read σ rs ++ read σ rt]> σ) rs = read σ rs ++ read σ rt)
    as Hnew by (unfold read; by rewrite lookup_insert_eq).
  assert (map (read (<[rs := read σ rs ++ read σ rt]> σ)) rest
          = map (read σ) rest) as Hold.
  { apply map_ext_in. intros r Hr%list_elem_of_In. unfold read.
    rewrite lookup_insert_ne; [done|]. intros <-. apply Hrs.
    by apply list_elem_of_further. }
  rewrite Hnew, Hold.
  destruct (merge_equations T (read σ rs) (read σ rt) (map (read σ) rest))
    as (_ & Hafter & Hapart).
  destruct (merge_equations T (read σ rs) (read σ rt)
              (read σ rt :: map (read σ) rest)) as (Hhead & _ & _).
  by split_and!.
Qed.

Lemma validate_syllables_merges_witness :
  (vowel_count SSP
     (read (<[0%nat := ["S"]]> (<[1%nat := ["T"]]> (<[2%nat := ["AH0"]]> ∅)))
        0%nat)%string = 0%nat →
   validate_syllables_objs SSP
     (<[0%nat := ["S"]]> (<[1%nat := ["T"]]> (<[2%nat := ["AH0"]]> ∅)))%string
     [0; 1; 2]%nat
   = match validate_syllables_objs SSP
             (<[0%nat := ["S"]]> (<[1%nat := ["T"]]>
                (<[2%nat := ["AH0"]]> ∅)))%string [1; 2]%nat with
     | x :: out =>
         (read (<[0%nat := ["S"]]> (<[1%nat := ["T"]]>
                  (<[2%nat := ["AH0"]]> ∅)))%string 0%nat ++ x) :: out
     | [] => []
     end) ∧
  validate_syllables_objs SSP
    (<[0%nat := ["S"]]> (<[1%nat := ["T"]]> (<[2%nat := ["AH0"]]> ∅)))%string
    [0; 1; 2]%nat
  = [["S"; "T"; "AH0"]]%string.
Proof.
  split; [|vm_compute; reflexivity].
  apply (validate_syllables_merges SSP
           (<[0%nat := ["S"]]> (<[1%nat := ["T"]]>
              (<[2%nat := ["AH0"]]> ∅)))%string 0%nat 1%nat [2%nat]).
  apply (bool_decide_unpack _). vm_compute. exact I.
Defined.

(** ** Segments are stable *)

Lemma span_all (class : N → bool) (text : list N) :
  Forall (λ c, class c = true) text → span class text = (text, []).
Proof.
  induction 1 as [|c text Hc _ IH]; [done|]. simpl. by rewrite Hc, IH.
Qed.

Lemma match_here_whole (in_cn : N → bool) (b : bool) (c : N) (text : list N) :
  Forall (λ x, in_cn x = b) (c :: text) →
  match_here in_cn (c :: text) = Some (c :: text, []).
Proof.
  intros Hall. unfold match_here. destruct b.
  - by rewrite (span_all in_cn (c :: text) Hall).
  - pose proof Hall as Hc. apply Forall_cons in Hc as [Hc _].
    assert (span in_cn (c :: text) = ([], c :: text)) as ->
      by (simpl; by rewrite Hc).
    rewrite (span_all (λ x, negb (in_cn x)) (c :: text)); [done|].
    eapply Forall_impl; [exact Hall|]. simpl. by intros x ->.
Qed.

(** Property X26. A segment that [split_zh_en] has returned is left whole by
    [split_zh_en]: segmenting it again gives that one segment. *)
Theorem split_zh_en_stable (in_cn : N → bool) (text : list N) :
  Forall (λ seg, split_zh_en in_cn seg = [seg]) (split_zh_en in_cn text).
Proof.
  apply Forall_forall. intros seg Hseg. unfold split_zh_en in Hseg.
  apply list_elem_of_In, in_map_iff in Hseg as (seg' & <- & Hin).
  apply list_elem_of_In, list_elem_of_filter in Hin as [Hkeep Hin].
  pose proof (findall_from_uniform in_cn (length text) text) as Hall.
  rewrite Forall_forall in Hall. destruct (Hall seg' Hin) as [b Hb].
  apply (strip_Forall _ seg') in Hb.
  pose proof (strip_stable seg') as Hfix.
  destruct (strip seg') as [|c rest] eqn:E; [done|].
  unfold split_zh_en, re_findall. cbn [length findall_from].
  rewrite (match_here_whole in_cn b c rest Hb).
  replace (findall_from in_cn (length rest) []) with (@nil (list N))
    by (by destruct (length rest)).
  rewrite filter_cons_True by (by rewrite Hfix).
  rewrite filter_nil. cbn [map]. by rewrite Hfix.
Qed.
